(** * A shallow embedding of [rag_policy_qa.py]

    The retrieval pipeline of the policy question-answering system:
    [PDFProcessor] (page text to chunks), [EmbeddingEngine] (batch embedding
    and cosine top-k search), [LLMReasoningEngine] (provider call with a
    rule-based fallback) and the [RAGPolicyQA] orchestrator.

    Conventions.
    - A Python [str] is a [string] of 8-bit characters; the character
      classes ([str.isspace], [str.isupper], [str.lower], the regex classes
      [\s] and [\d]) are those of Python on ASCII text.
    - A Python [float] is a rational [Q]; the library routines that do real
      floating-point work (the embedding model, cosine similarity, [argsort]
      and the [',.2f'] number format) are fields of an environment record.
    - Python exceptions are values of [exn]; a call either [Returns] a value
      or [Raises] an exception.
    - Chunk objects and list objects live in an explicit heap, so that two
      references to one object are visibly the same object. *)

From Stdlib Require Import Ascii String DecimalString DecimalNat QArith Sorting.Sorted Sorting.Permutation.
From stdpp Require Import gmap strings list sorting.

Local Close Scope Q_scope.
Local Open Scope string_scope.
Local Open Scope nat_scope.
Local Open Scope list_scope.
#[local] Set Warnings "-register-all".

(** ** Python string primitives *)

Module PyStr.

Definition code (c : ascii) : nat := nat_of_ascii c.

(** [str.isspace] on an ASCII character: TAB..CR, FS..US and the space. *)
Definition is_space (c : ascii) : bool :=
  let n := code c in
  ((9 <=? n) && (n <=? 13)) || ((28 <=? n) && (n <=? 32)).

(** The ten digits that [str(n)] writes. *)
Definition is_digit (c : ascii) : bool :=
  let n := code c in (48 <=? n) && (n <=? 57).

Definition is_upper_char (c : ascii) : bool :=
  let n := code c in (65 <=? n) && (n <=? 90).

Definition is_lower_char (c : ascii) : bool :=
  let n := code c in (97 <=? n) && (n <=? 122).

Definition lower_char (c : ascii) : ascii :=
  if is_upper_char c then ascii_of_nat (code c + 32) else c.

(** [s.lower()] *)
Fixpoint lower (s : string) : string :=
  match s with
  | EmptyString => EmptyString
  | String c r => String (lower_char c) (lower r)
  end.

Fixpoint existsb_str (p : ascii -> bool) (s : string) : bool :=
  match s with
  | EmptyString => false
  | String c r => p c || existsb_str p r
  end.

(** [s.isupper()]: at least one cased character, and no lower-case one. *)
Definition isupper (s : string) : bool :=
  existsb_str is_upper_char s && negb (existsb_str is_lower_char s).

Fixpoint lstrip (s : string) : string :=
  match s with
  | EmptyString => EmptyString
  | String c r => if is_space c then lstrip r else s
  end.

(** [rstrip] keeps a character when it or something after it is not a space. *)
Fixpoint rstrip (s : string) : string :=
  match s with
  | EmptyString => EmptyString
  | String c r =>
      match rstrip r with
      | EmptyString => if is_space c then EmptyString else String c EmptyString
      | r' => String c r'
      end
  end.

(** [s.strip()] *)
Definition strip (s : string) : string := rstrip (lstrip s).

(** [s.split(sep)] for a one-character separator: never an empty list. *)
Fixpoint split_on (sep : ascii) (s : string) : list string :=
  match s with
  | EmptyString => [EmptyString]
  | String c r =>
      if Ascii.eqb c sep then EmptyString :: split_on sep r
      else match split_on sep r with
           | [] => [String c EmptyString]
           | w :: ws => String c w :: ws
           end
  end.

(** [s.split()]: the maximal runs of non-space characters. *)
Fixpoint words_from (cur : string) (s : string) : list string :=
  match s with
  | EmptyString => match cur with EmptyString => [] | _ => [cur] end
  | String c r =>
      if is_space c
      then match cur with
           | EmptyString => words_from EmptyString r
           | _ => cur :: words_from EmptyString r
           end
      else words_from (cur +:+ String c EmptyString) r
  end.

Definition split_ws (s : string) : list string := words_from EmptyString s.

(** [sep.join(l)] *)
Fixpoint join (sep : string) (l : list string) : string :=
  match l with
  | [] => EmptyString
  | [w] => w
  | w :: ws => w +:+ sep +:+ join sep ws
  end.

(** [s[:n]] for [n >= 0] *)
Fixpoint take_str (n : nat) (s : string) : string :=
  match n, s with
  | S n', String c r => String c (take_str n' r)
  | _, _ => EmptyString
  end.

(** [s.startswith(p)] *)
Fixpoint startswith (p s : string) : bool :=
  match p with
  | EmptyString => true
  | String a p' =>
      match s with
      | String b s' => Ascii.eqb a b && startswith p' s'
      | EmptyString => false
      end
  end.

(** [needle in hay] *)
Fixpoint contains (needle hay : string) : bool :=
  startswith needle hay
  || match hay with
     | EmptyString => false
     | String _ r => contains needle r
     end.

(** [s.replace(c, "")] for a one-character [c] *)
Fixpoint remove_char (x : ascii) (s : string) : string :=
  match s with
  | EmptyString => EmptyString
  | String c r => if Ascii.eqb c x then remove_char x r else String c (remove_char x r)
  end.

(** [l[-n:]] on a list, [n > 0] *)
Definition last_n {A} (n : nat) (l : list A) : list A :=
  skipn (length l - n) l.

(** [os.path.basename] on a POSIX path: what follows the last slash. *)
Definition basename (p : string) : string :=
  List.last (split_on "/"%char p) EmptyString.

(** [str(n)] for a natural number *)
Definition str_of_nat (n : nat) : string :=
  NilEmpty.string_of_uint (Nat.to_uint n).

End PyStr.

Import PyStr.

(** ** Decimal digits beyond ASCII

    The pattern class [\d] and [float] take every decimal digit of Unicode
    (the characters with a decimal value in [unicodedata], category Nd), not
    the ten ASCII digits alone.  A character beyond ASCII stands in a text
    as the bytes of its UTF-8 form; the digits are read from that form. *)

Module Unicode.

Local Open Scope N_scope.

Definition byte (c : ascii) : N := N_of_ascii c.

(** The payload of a continuation byte, [10xxxxxx]. *)
Definition continuation (c : ascii) : option N :=
  let b := byte c in
  if (0x80 <=? b) && (b <? 0xC0) then Some (b - 0x80) else None.

(** A code point [cp] read from a form of the given length is accepted
    when that form is the shortest one for it. *)
Definition shortest (least cp : N) (rest : string) : option (N * string) :=
  if (least <=? cp) && (cp <? 0x110000) then Some (cp, rest) else None.

(** The code point that starts a string in UTF-8, and the string after
    it; [None] at the end of the string and at a byte that starts no
    character. *)
Definition utf8_head (s : string) : option (N * string) :=
  match s with
  | EmptyString => None
  | String c0 r0 =>
      let b0 := byte c0 in
      if b0 <? 0x80 then Some (b0, r0)
      else if b0 <? 0xC0 then None
      else if b0 <? 0xE0 then
        match r0 with
        | String c1 r1 =>
            match continuation c1 with
            | Some x1 => shortest 0x80 ((b0 - 0xC0) * 64 + x1) r1
            | None => None
            end
        | _ => None
        end
      else if b0 <? 0xF0 then
        match r0 with
        | String c1 (String c2 r2) =>
            match continuation c1, continuation c2 with
            | Some x1, Some x2 => shortest 0x800 (((b0 - 0xE0) * 64 + x1) * 64 + x2) r2
            | _, _ => None
            end
        | _ => None
        end
      else if b0 <? 0xF8 then
        match r0 with
        | String c1 (String c2 (String c3 r3)) =>
            match continuation c1, continuation c2, continuation c3 with
            | Some x1, Some x2, Some x3 =>
                shortest 0x10000 ((((b0 - 0xF0) * 64 + x1) * 64 + x2) * 64 + x3) r3
            | _, _, _ => None
            end
        | _ => None
        end
      else None
  end.

(** The decimal digits of Unicode 14 come in 66 runs of ten consecutive
    code points, the digits zero to nine of one script in order.  The code
    point of each zero: ASCII, Arabic-Indic, Devanagari, Bengali, ...,
    fullwidth, ..., the mathematical digits, ... *)
Definition decimal_zeros : list N :=
  [0x30; 0x660; 0x6F0; 0x7C0; 0x966; 0x9E6; 0xA66; 0xAE6; 0xB66; 0xBE6; 0xC66;
   0xCE6; 0xD66; 0xDE6; 0xE50; 0xED0; 0xF20; 0x1040; 0x1090; 0x17E0; 0x1810;
   0x1946; 0x19D0; 0x1A80; 0x1A90; 0x1B50; 0x1BB0; 0x1C40; 0x1C50; 0xA620;
   0xA8D0; 0xA900; 0xA9D0; 0xA9F0; 0xAA50; 0xABF0; 0xFF10; 0x104A0; 0x10D30;
   0x11066; 0x110F0; 0x11136; 0x111D0; 0x112F0; 0x11450; 0x114D0; 0x11650;
   0x116C0; 0x11730; 0x118E0; 0x11950; 0x11C50; 0x11D50; 0x11DA0; 0x16A60;
   0x16AC0; 0x16B50; 0x1D7CE; 0x1D7D8; 0x1D7E2; 0x1D7EC; 0x1D7F6; 0x1E140;
   0x1E2F0; 0x1E950; 0x1FBF0].

(** [unicodedata.decimal]: the value of a decimal digit. *)
Definition decimal_of_code (cp : N) : option nat :=
  (fun zero => N.to_nat (cp - zero))
    <$> List.find (fun zero => (zero <=? cp) && (cp <? zero + 10)) decimal_zeros.

(** The decimal digit that starts a string: its value and the string
    after it. *)
Definition decimal_digit (s : string) : option (nat * string) :=
  match utf8_head s with
  | Some (cp, rest) => (fun v => (v, rest)) <$> decimal_of_code cp
  | None => None
  end.

End Unicode.

Import Unicode.

(** ** The fragment of Python's [re] that the program uses

    A backtracking matcher in continuation-passing style: alternatives are
    tried left to right and repetition is greedy, as in [re].  One capture
    group is enough for the three patterns of the program.  A class is
    either a set of one-byte characters ([Chr]) or a reader ([Tok]) that
    takes one character of the class, of whatever length, off the string. *)

Module Re.

Inductive regex : Type :=
| Eps
| Chr (p : ascii -> bool)
| Tok (read : string -> option string)
| Seq (r1 r2 : regex)
| Alt (r1 r2 : regex)
| Star (r : regex)
| Group (r : regex).

Definition Opt (r : regex) : regex := Alt r Eps.
Definition Plus (r : regex) : regex := Seq r (Star r).

(** A literal character under [re.IGNORECASE]. *)
Definition chr_ci (x : ascii) : regex :=
  Chr (fun c => Ascii.eqb (lower_char c) (lower_char x)).

(** A literal string under [re.IGNORECASE]. *)
Fixpoint lit_ci (s : string) : regex :=
  match s with
  | EmptyString => Eps
  | String c r => Seq (chr_ci c) (lit_ci r)
  end.

Definition orelse {A} (x y : option A) : option A :=
  match x with Some _ => x | None => y end.

(** [rmatch r s cap k]: match [r] at the start of [s], then hand the rest
    of the input and the capture to [k]; [None] makes the matcher
    backtrack. *)
Fixpoint rmatch {A} (r : regex) (s : string) (cap : option string)
         (k : string -> option string -> option A) : option A :=
  match r with
  | Eps => k s cap
  | Chr p =>
      match s with
      | String c s' => if p c then k s' cap else None
      | EmptyString => None
      end
  | Tok read =>
      match read s with
      | Some s' => k s' cap
      | None => None
      end
  | Seq r1 r2 => rmatch r1 s cap (fun s1 cap1 => rmatch r2 s1 cap1 k)
  | Alt r1 r2 => orelse (rmatch r1 s cap k) (rmatch r2 s cap k)
  | Star r1 =>
      (fix loop (n : nat) (s : string) (cap : option string) : option A :=
         match n with
         | O => k s cap
         | S n' =>
             orelse
               (rmatch r1 s cap
                  (fun s1 cap1 =>
                     if String.length s1 <? String.length s
                     then loop n' s1 cap1 else None))
               (k s cap)
         end) (String.length s) s cap
  | Group r1 =>
      rmatch r1 s cap
        (fun s1 _ =>
           k s1 (Some (take_str (String.length s - String.length s1) s)))
  end.

(** One occurrence: the text skipped before it, the text matched, the
    capture and the text after it. *)
Record occurrence : Type :=
  { before : string; matched : string; captured : option string; after : string }.

(** [re.search]: the leftmost position where the pattern matches. *)
Fixpoint search (r : regex) (s : string) : option occurrence :=
  match rmatch r s None (fun rest cap => Some (rest, cap)) with
  | Some (rest, cap) =>
      Some {| before := EmptyString;
              matched := take_str (String.length s - String.length rest) s;
              captured := cap; after := rest |}
  | None =>
      match s with
      | EmptyString => None
      | String c s' =>
          match search r s' with
          | Some o => Some {| before := String c (before o); matched := matched o;
                              captured := captured o; after := after o |}
          | None => None
          end
      end
  end.

(** The successive non-overlapping occurrences, and the text after the
    last one.  The patterns of the program match at least one character;
    the scan stops at an empty match. *)
Fixpoint finditer_fuel (n : nat) (r : regex) (s : string) : list occurrence * string :=
  match n with
  | O => ([], s)
  | S n' =>
      match search r s with
      | None => ([], s)
      | Some o =>
          match matched o with
          | EmptyString => ([], s)
          | _ => let '(os, tl) := finditer_fuel n' r (after o) in (o :: os, tl)
          end
      end
  end.

Definition finditer (r : regex) (s : string) : list occurrence * string :=
  finditer_fuel (String.length s) r s.

(** [re.sub(r, repl, s)] for a constant replacement *)
Definition sub (r : regex) (repl : string) (s : string) : string :=
  let '(os, tl) := finditer r s in
  fold_right (fun o acc => before o +:+ repl +:+ acc) tl os.

(** [re.split(r, s)] for a pattern without capture group *)
Definition split (r : regex) (s : string) : list string :=
  let '(os, tl) := finditer r s in map before os ++ [tl].

(** [re.findall(r, s)] for a pattern with one capture group *)
Definition findall (r : regex) (s : string) : list string :=
  map (fun o => default EmptyString (captured o)) (finditer r s).1.

End Re.

(** The three patterns of the program. *)

(** The pattern "\s+". *)
Definition WS_RUN : Re.regex := Re.Plus (Re.Chr is_space).

Definition is_sentence_punct (c : ascii) : bool :=
  Ascii.eqb c "."%char || Ascii.eqb c "!"%char || Ascii.eqb c "?"%char.

(** The pattern "[.!?]+\s+". *)
Definition SENTENCE_END : Re.regex :=
  Re.Seq (Re.Plus (Re.Chr is_sentence_punct)) (Re.Plus (Re.Chr is_space)).

(** The class [\d]: one decimal digit. *)
Definition read_digit (s : string) : option string :=
  snd <$> decimal_digit s.

(** The class [[\d,]]: one decimal digit or a comma. *)
Definition read_digit_or_comma (s : string) : option string :=
  match s with
  | String c r => if Ascii.eqb c ","%char then Some r else read_digit s
  | EmptyString => None
  end.

(** The optional prefix of the currency pattern, a non-capturing group of
    three alternatives: [rs\.?\s*], [₹\s*] and [inr\s*]. *)
Definition CURRENCY_MARKER : Re.regex :=
  Re.Alt (Re.Seq (Re.lit_ci "rs")
            (Re.Seq (Re.Opt (Re.chr_ci "."%char)) (Re.Star (Re.Chr is_space))))
    (Re.Alt (Re.Seq (Re.lit_ci "₹") (Re.Star (Re.Chr is_space)))
       (Re.Seq (Re.lit_ci "inr") (Re.Star (Re.Chr is_space)))).

(** The capture group of the currency pattern: [[\d,]+] followed by an
    optional non-capturing [\.\d{2}]. *)
Definition NUMBER : Re.regex :=
  Re.Group
    (Re.Seq (Re.Plus (Re.Tok read_digit_or_comma))
       (Re.Opt (Re.Seq (Re.chr_ci "."%char)
                  (Re.Seq (Re.Tok read_digit) (Re.Tok read_digit))))).

(** The currency pattern, compiled with [re.IGNORECASE]. *)
Definition AMOUNT : Re.regex :=
  Re.Seq (Re.Opt CURRENCY_MARKER) NUMBER.

(** ** Exceptions and results *)

Inductive exn : Type :=
| ValueError (msg : string)
| TypeError (msg : string)
| IndexError
| KeyError (key : string)
| FileNotFoundError (path : string)
| JSONDecodeError
| LibraryError (origin : string).

Inductive outcome (A : Type) : Type :=
| Returns (a : A)
| Raises (e : exn).
Arguments Returns {A} a.
Arguments Raises {A} e.

#[global] Instance outcome_ret : MRet outcome := fun A a => Returns a.

#[global] Instance outcome_bind : MBind outcome := fun A B f x =>
  match x with
  | Returns a => f a
  | Raises e => Raises e
  end.

(** [try: body  except Exception as e: handler e] *)
Definition try_except {A} (body : outcome A) (handler : exn -> outcome A) : outcome A :=
  match body with
  | Returns a => Returns a
  | Raises e => handler e
  end.

(** [try: body  except json.JSONDecodeError: handler]; any other exception
    passes through. *)
Definition try_except_json {A} (body : outcome A) (handler : outcome A) : outcome A :=
  match body with
  | Raises JSONDecodeError => handler
  | other => other
  end.

Definition raised {A} (x : outcome A) : Prop := exists e, x = Raises e.

(** ** Data model *)

Definition vector : Type := list Q.

(** The dataclass [DocumentChunk]. *)
Record DocumentChunk : Type := mkChunk
  { text : string;
    page_number : nat;
    section : string;
    filename : string;
    chunk_id : string;
    embedding : option vector }.

(** Values of Python's dynamic types, as [json.loads] builds them and as the
    fields of a [QueryResult] hold them (a dataclass checks no type). *)
Inductive pyval : Type :=
| PNone
| PBool (b : bool)
| PNum (q : Q)
| PStr (s : string)
| PList (l : list pyval)
| PDict (d : list (string * pyval)).

(** The dataclass [QueryResult]. *)
Record QueryResult : Type := mkResult
  { decision : pyval;
    amount : pyval;
    justification : pyval;
    clause_mapping : pyval }.

(** A retrieval hit: a chunk and its similarity score. *)
Definition hit : Type := DocumentChunk * Q.

(** ** The libraries the program calls *)

Record Env : Type := mkEnv
  { (** [os.path.exists], [fitz.open] and [page.get_text] of every page:
        the page texts in order, or the exception one of them raises. *)
    fitz_pages : string -> outcome (list string);
    (** [SentenceTransformer.encode]: one vector per text, in order. *)
    model_encode : list string -> outcome (list vector);
    (** one entry of [sklearn]'s [cosine_similarity] *)
    cosine : vector -> vector -> Q;
    (** [np.argsort]: the indices that sort the scores in ascending order *)
    np_argsort : list Q -> list nat;
    (** [openai.ChatCompletion.create] on the prompt built from the query and
        the hits, followed by [response.choices[0].message.content.strip()];
        it raises on transport, timeout and authentication failures. *)
    chat_completion : string -> list hit -> outcome string;
    (** [json.loads] *)
    json_loads : string -> outcome pyval;
    (** the format [',.2f'] of a float *)
    format_money : Q -> string }.

(** ** PDFProcessor *)

Module PDFProcessor.

Definition chunk_size : nat := 500.
Definition overlap : nat := 50.

Definition nonempty (s : string) : bool :=
  match s with EmptyString => false | _ => true end.

(** One iteration of the loop over sentences; the state is the list of
    chunks and the running chunk. *)
Definition split_step (st : list string * string) (sentence : string)
  : list string * string :=
  let '(chunks, current_chunk) := st in
  let sentence := strip sentence in
  if negb (nonempty sentence) then st
  else if (chunk_size <? String.length current_chunk + String.length sentence)
          && nonempty current_chunk
  then
    let words := split_ws current_chunk in
    let overlap_words :=
      if overlap / 5 <? length words then last_n (overlap / 5) words else words in
    (chunks ++ [current_chunk], join " " overlap_words +:+ " " +:+ sentence)
  else
    (chunks, if nonempty current_chunk then current_chunk +:+ " " +:+ sentence
             else sentence).

Definition _split_text_into_chunks (text : string) : list string :=
  let text := Re.sub WS_RUN " " text in
  let text := strip text in
  let sentences := Re.split SENTENCE_END text in
  let '(chunks, current_chunk) := fold_left split_step sentences ([], EmptyString) in
  if nonempty (strip current_chunk) then chunks ++ [current_chunk] else chunks.

Definition default_section : string := "General".

(** The test that makes a stripped line a section heading. *)
Definition is_heading (line : string) : bool :=
  (5 <? String.length line) && isupper line && (String.length line <? 100).

(** The loop over the lines of a page: [current_section] after the last line. *)
Definition page_section (text : string) : string :=
  fold_left (fun current_section line =>
               let line := strip line in
               if is_heading line then line else current_section)
            (split_on "010"%char text) default_section.

Definition make_chunk_id (filename : string) (page_num chunk_idx : nat) : string :=
  filename +:+ "_p" +:+ str_of_nat (page_num + 1) +:+ "_c" +:+ str_of_nat (chunk_idx + 1).

(** The loop over [enumerate(page_chunks)] *)
Fixpoint page_chunks_from (filename current_section : string) (page_num chunk_idx : nat)
         (page_chunks : list string) : list DocumentChunk :=
  match page_chunks with
  | [] => []
  | chunk_text :: rest =>
      let tail := page_chunks_from filename current_section page_num (S chunk_idx) rest in
      if String.length (strip chunk_text) <? 50 then tail
      else {| text := strip chunk_text;
              page_number := page_num + 1;
              section := current_section;
              filename := filename;
              chunk_id := make_chunk_id filename page_num chunk_idx;
              embedding := None |} :: tail
  end.

(** The body of the loop over pages, for one page. *)
Definition page_chunks_of (filename : string) (page_num : nat) (text : string)
  : list DocumentChunk :=
  if negb (nonempty (strip text)) then []
  else
    let current_section := page_section text in
    page_chunks_from filename current_section page_num 0 (_split_text_into_chunks text).

(** The loop over [range(doc_pages)] *)
Fixpoint pages_from (filename : string) (page_num : nat) (pages : list string)
  : list DocumentChunk :=
  match pages with
  | [] => []
  | text :: rest =>
      page_chunks_of filename page_num text ++ pages_from filename (S page_num) rest
  end.

Definition extract_text_from_pdf (env : Env) (pdf_path : string)
  : outcome (list DocumentChunk) :=
  let filename := basename pdf_path in
  pages ← fitz_pages env pdf_path;
  mret (pages_from filename 0 pages).

End PDFProcessor.

(** ** The object store

    [DocumentChunk] objects and Python lists of them are heap objects; a
    variable or an attribute holds a reference.  References are never
    dangling in Python: [heap_wf] says so, and the lookups below are total
    on well-formed heaps. *)

Definition loc : Type := nat.

Record Heap : Type := mkHeap
  { chunk_objs : gmap loc DocumentChunk;
    list_objs : gmap loc (list loc);
    next_loc : loc }.

Definition empty_heap : Heap :=
  {| chunk_objs := ∅; list_objs := ∅; next_loc := 0 |}.

(** The elements of the list object at [l]. *)
Definition deref_list (h : Heap) (l : loc) : list loc :=
  default [] (list_objs h !! l).

(** The chunk objects a list of references designates. *)
Definition get_chunks (h : Heap) (refs : list loc) : list DocumentChunk :=
  omap (fun r => chunk_objs h !! r) refs.

Definition heap_wf (h : Heap) : Prop :=
  (forall l refs, list_objs h !! l = Some refs ->
     forall r, r ∈ refs -> is_Some (chunk_objs h !! r)) /\
  (forall r, next_loc h <= r -> chunk_objs h !! r = None /\ list_objs h !! r = None).

(** Construction of one [DocumentChunk] object. *)
Definition new_chunk (h : Heap) (c : DocumentChunk) : loc * Heap :=
  (next_loc h,
   {| chunk_objs := <[next_loc h := c]> (chunk_objs h);
      list_objs := list_objs h;
      next_loc := S (next_loc h) |}).

Fixpoint new_chunks (h : Heap) (cs : list DocumentChunk) : list loc * Heap :=
  match cs with
  | [] => ([], h)
  | c :: rest =>
      let '(r, h1) := new_chunk h c in
      let '(rs, h2) := new_chunks h1 rest in
      (r :: rs, h2)
  end.

(** Construction of one list object. *)
Definition new_list (h : Heap) (refs : list loc) : loc * Heap :=
  (next_loc h,
   {| chunk_objs := chunk_objs h;
      list_objs := <[next_loc h := refs]> (list_objs h);
      next_loc := S (next_loc h) |}).

(** The chunk [c] with its [embedding] field set to [v]. *)
Definition with_embedding (v : vector) (c : DocumentChunk) : DocumentChunk :=
  {| text := text c; page_number := page_number c; section := section c;
     filename := filename c; chunk_id := chunk_id c; embedding := Some v |}.

(** [chunk.embedding = v] on the object at [r] *)
Definition set_embedding (h : Heap) (r : loc) (v : vector) : Heap :=
  {| chunk_objs := alter (with_embedding v) r (chunk_objs h);
     list_objs := list_objs h;
     next_loc := next_loc h |}.

(** ** EmbeddingEngine *)

Record EmbeddingEngine : Type := mkEngine
  { chunks : loc;
    embeddings : option (list vector) }.

(** [a[:k]] for an integer [k] of either sign *)
Definition slice_to {A} (k : Z) (l : list A) : list A :=
  if (0 <=? k)%Z then take (Z.to_nat k) l
  else take (length l - Z.to_nat (- k)) l.

(** The loop [for i, chunk in enumerate(self.chunks): chunk.embedding =
    embeddings[i]], from index [i] on. *)
Fixpoint store_embeddings (h : Heap) (i : nat) (refs : list loc) (embs : list vector)
  : outcome unit * Heap :=
  match refs with
  | [] => (Returns tt, h)
  | r :: rest =>
      match embs !! i with
      | None => (Raises IndexError, h)
      | Some v => store_embeddings (set_embedding h r v) (S i) rest embs
      end
  end.

Definition create_embeddings (env : Env) (chunks_arg : loc)
           (st : Heap * EmbeddingEngine) : outcome unit * (Heap * EmbeddingEngine) :=
  let '(h, self) := st in
  let self := {| chunks := chunks_arg; embeddings := embeddings self |} in
  let texts := map text (get_chunks h (deref_list h chunks_arg)) in
  match model_encode env texts with
  | Raises e => (Raises e, (h, self))
  | Returns embs =>
      let self := {| chunks := chunks self; embeddings := Some embs |} in
      let '(r, h) := store_embeddings h 0 (deref_list h (chunks self)) embs in
      (r, (h, self))
  end.

Definition no_embeddings_msg : string :=
  "No embeddings available. Call create_embeddings first.".

(** The loop that builds [results] from [top_indices]. *)
Fixpoint collect_results (cs : list loc) (similarities : list Q) (top_indices : list nat)
  : outcome (list (loc * Q)) :=
  match top_indices with
  | [] => Returns []
  | idx :: rest =>
      match cs !! idx, similarities !! idx with
      | Some chunk, Some score =>
          results ← collect_results cs similarities rest;
          mret ((chunk, score) :: results)
      | _, _ => Raises IndexError
      end
  end.

Definition semantic_search (env : Env) (h : Heap) (self : EmbeddingEngine)
           (query : string) (top_k : Z) : outcome (list (loc * Q)) :=
  match embeddings self with
  | None => Raises (ValueError no_embeddings_msg)
  | Some stored =>
      let cs := deref_list h (chunks self) in
      if length cs =? 0 then Raises (ValueError no_embeddings_msg)
      else
        query_embedding ← model_encode env [query];
        match query_embedding with
        | [] => Raises IndexError
        | qv :: _ =>
            let similarities := map (cosine env qv) stored in
            let top_indices := slice_to top_k (reverse (np_argsort env similarities)) in
            collect_results cs similarities top_indices
        end
  end.

(** ** LLMReasoningEngine *)

Record LLMReasoningEngine : Type := mkLLM { api_key : option string }.

(** Truth value of [self.api_key]: [None] and the empty string are false. *)
Definition has_key (self : LLMReasoningEngine) : bool :=
  match api_key self with
  | Some (String _ _) => true
  | _ => false
  end.

(** The decimal digits that make up a string, from left to right; [None]
    when some character of the string is not a decimal digit. *)
Fixpoint digits_of (fuel : nat) (s : string) : option (list nat) :=
  match s, fuel with
  | EmptyString, _ => Some []
  | _, O => None
  | _, S fuel' =>
      match decimal_digit s with
      | Some (d, rest) => (fun ds => d :: ds) <$> digits_of fuel' rest
      | None => None
      end
  end.

(** The number that a row of digits writes in base ten. *)
Definition digits_value (ds : list nat) : N :=
  fold_left (fun acc d => acc * 10 + N.of_nat d)%N ds 0%N.

Definition pow10 (k : nat) : positive := Nat.iter k (Pos.mul 10) 1%positive.

Definition float_error : exn := ValueError "could not convert string to float".

(** [float(s)] on the strings the currency pattern can capture once the
    commas are gone: decimal digits with at most one decimal point and at
    least one digit give their value; a string of that alphabet without a
    digit, or with a second point, raises [ValueError]. *)
Definition py_float (s : string) : outcome Q :=
  match split_on "."%char s with
  | [whole] =>
      match digits_of (String.length whole) whole with
      | Some (d :: ds) => Returns (inject_Z (Z.of_N (digits_value (d :: ds))))
      | _ => Raises float_error
      end
  | [whole; frac] =>
      match digits_of (String.length whole) whole, digits_of (String.length frac) frac with
      | Some w, Some f =>
          if length w + length f =? 0 then Raises float_error
          else
            let d := pow10 (length f) in
            Returns (Qmake (Z.of_N (digits_value w) * Z.pos d + Z.of_N (digits_value f)) d)
      | _, _ => Raises float_error
      end
  | _ => Raises float_error
  end.

(** [100 <= amount <= 10000000] *)
Definition in_range (a : Q) : bool :=
  Qle_bool 100 a && Qle_bool a 10000000.

(** The inner loop of the amount extraction, for one chunk text: the values
    appended to [amounts]. *)
Definition chunk_amounts (chunk_text : string) : list Q :=
  flat_map
    (fun m =>
       match py_float (remove_char ","%char m) with
       | Returns a => if in_range a then [a] else []
       | Raises _ => []
       end)
    (Re.findall AMOUNT chunk_text).

(** The list [amounts] after the loop over the hits. *)
Definition collect_amounts (relevant_chunks : list hit) : list Q :=
  flat_map (fun '(chunk, _) => chunk_amounts (text chunk)) relevant_chunks.

(** [max(l)]: the first of the largest elements. *)
Definition py_max (l : list Q) : option Q :=
  match l with
  | [] => None
  | x :: rest =>
      Some (fold_left (fun m y => if Qle_bool y m then m else y) rest x)
  end.

Definition rejection_keywords : list string :=
  ["excluded"; "not covered"; "rejected"; "denied"; "invalid"].

(** [any(keyword in chunk.text.lower() for keyword in rejection_keywords)] *)
Definition mentions_rejection (chunk : DocumentChunk) : bool :=
  existsb (fun keyword => contains keyword (lower (text chunk))) rejection_keywords.

(** The rejection loop with its [break]: it returns at the first chunk that
    mentions a keyword and looks at no later one. *)
Fixpoint rejection_loop (decision : string) (relevant_chunks : list hit) : string :=
  match relevant_chunks with
  | [] => decision
  | (chunk, _) :: rest =>
      if mentions_rejection chunk then "rejected"
      else rejection_loop decision rest
  end.

Definition clause_text_of (chunk : DocumentChunk) : string :=
  if 200 <? String.length (text chunk)
  then take_str 200 (text chunk) +:+ "..."
  else text chunk.

Definition clause_entry (chunk : DocumentChunk) : pyval :=
  PDict [("clause_text", PStr (clause_text_of chunk));
         ("source", PDict [("filename", PStr (filename chunk));
                           ("page", PNum (inject_Z (Z.of_nat (page_number chunk))));
                           ("section", PStr (section chunk))])].

(** Truth value of [amount] in [decision == "approved" and amount] *)
Definition amount_truthy (a : option Q) : bool :=
  match a with
  | Some q => negb (Qeq_bool q 0)
  | None => false
  end.

Definition _fallback_reasoning (env : Env) (query : string) (relevant_chunks : list hit)
  : QueryResult :=
  let amounts := collect_amounts relevant_chunks in
  let decision := "approved" in
  let amount := py_max amounts in
  let decision := rejection_loop decision relevant_chunks in
  let clause_mapping := map (fun '(chunk, _) => clause_entry chunk) (take 3 relevant_chunks) in
  let justification :=
    "Decision based on analysis of " +:+ str_of_nat (length relevant_chunks)
    +:+ " relevant clauses from the policy document. " in
  let justification :=
    if String.eqb decision "approved" && amount_truthy amount
    then justification +:+ "Claim approved for amount ₹"
         +:+ format_money env (default 0%Q amount) +:+ "."
    else if String.eqb decision "rejected"
    then justification +:+ "Claim rejected based on policy exclusions or limitations."
    else justification +:+ "Policy terms analyzed but no specific amount determined." in
  {| decision := PStr decision;
     amount := match amount with Some a => PNum a | None => PNone end;
     justification := PStr justification;
     clause_mapping := PList clause_mapping |}.

Definition field_names : list string :=
  ["decision"; "amount"; "justification"; "clause_mapping"].

Fixpoint dict_get (d : list (string * pyval)) (k : string) : option pyval :=
  match d with
  | [] => None
  | (k', v) :: rest => if String.eqb k' k then Some v else dict_get rest k
  end.

(** [QueryResult] called with the parsed value unpacked as keyword
    arguments: the value must be a mapping whose keys
    are exactly the four field names (no field has a default); the values
    are stored as they come. *)
Definition QueryResult_of_kwargs (result_dict : pyval) : outcome QueryResult :=
  match result_dict with
  | PDict d =>
      if forallb (fun kv => existsb (String.eqb kv.1) field_names) d
      then
        match dict_get d "decision", dict_get d "amount",
              dict_get d "justification", dict_get d "clause_mapping" with
        | Some dec, Some amt, Some jus, Some cm => Returns (mkResult dec amt jus cm)
        | _, _, _, _ => Raises (TypeError "missing required positional argument")
        end
      else Raises (TypeError "got an unexpected keyword argument")
  | _ => Raises (TypeError "argument after ** must be a mapping")
  end.

(** The prompt strings are built before the [try] from the query and the
    hits by string formatting alone; the provider is given both. *)
Definition generate_response (env : Env) (self : LLMReasoningEngine)
           (query : string) (relevant_chunks : list hit) : outcome QueryResult :=
  try_except
    (if negb (has_key self)
     then Returns (_fallback_reasoning env query relevant_chunks)
     else
       response_text ← chat_completion env query relevant_chunks;
       try_except_json
         (result_dict ← json_loads env response_text;
          QueryResult_of_kwargs result_dict)
         (Returns (_fallback_reasoning env query relevant_chunks)))
    (fun _ => Returns (_fallback_reasoning env query relevant_chunks)).

(** ** RAGPolicyQA *)

Record RAGPolicyQA : Type := mkRAG
  { embedding_engine : EmbeddingEngine;
    llm_engine : LLMReasoningEngine;
    is_initialized : bool }.

(** [RAGPolicyQA(openai_api_key)]: the engine starts with a fresh empty list
    and no embedding matrix. *)
Definition RAGPolicyQA_init (h : Heap) (key : option string) : Heap * RAGPolicyQA :=
  let '(l, h) := new_list h [] in
  (h, {| embedding_engine := {| chunks := l; embeddings := None |};
         llm_engine := {| api_key := key |};
         is_initialized := false |}).

Definition no_text_msg (pdf_path : string) : string :=
  "No text extracted from PDF: " +:+ pdf_path.

(** The chunk objects and the list that [extract_text_from_pdf] returns are
    entered in the store where [process_document] passes them on; until
    then nothing else refers to them. *)
Definition process_document (env : Env) (pdf_path : string) (st : Heap * RAGPolicyQA)
  : outcome unit * (Heap * RAGPolicyQA) :=
  let '(h, self) := st in
  match PDFProcessor.extract_text_from_pdf env pdf_path with
  | Raises e => (Raises e, st)
  | Returns [] => (Raises (ValueError (no_text_msg pdf_path)), st)
  | Returns new_chunks_v =>
      let '(refs, h) := new_chunks h new_chunks_v in
      let '(chunks_ref, h) := new_list h refs in
      let '(r, (h, engine)) := create_embeddings env chunks_ref (h, embedding_engine self) in
      let self := {| embedding_engine := engine; llm_engine := llm_engine self;
                     is_initialized := is_initialized self |} in
      match r with
      | Raises e => (Raises e, (h, self))
      | Returns _ =>
          (Returns tt,
           (h, {| embedding_engine := embedding_engine self;
                  llm_engine := llm_engine self;
                  is_initialized := true |}))
      end
  end.

(** Iteration over a value: the elements of a list, the characters of a
    string, the keys of a dict; other values are not iterable. *)
Definition py_iter (v : pyval) : outcome (list pyval) :=
  match v with
  | PList l => Returns l
  | PStr s => Returns (map (fun c => PStr (String c EmptyString)) (list_ascii_of_string s))
  | PDict d => Returns (map (fun kv => PStr kv.1) d)
  | _ => Raises (TypeError "object is not iterable")
  end.

(** [v[key]] for a string key *)
Definition py_getitem (v : pyval) (key : string) : outcome pyval :=
  match v with
  | PDict d =>
      match dict_get d key with
      | Some x => Returns x
      | None => Raises (KeyError key)
      end
  | PStr _ => Raises (TypeError "string indices must be integers")
  | PList _ => Raises (TypeError "list indices must be integers or slices")
  | _ => Raises (TypeError "object is not subscriptable")
  end.

(** The audit loop of [query]: it reads [clause['source']] of every entry. *)
Fixpoint audit_clauses (clauses : list pyval) : outcome unit :=
  match clauses with
  | [] => Returns tt
  | clause :: rest =>
      _ ← py_getitem clause "source";
      audit_clauses rest
  end.

Definition not_loaded_msg : string :=
  "No document loaded. Call process_document first.".

Definition no_clauses_result : QueryResult :=
  {| decision := PStr "rejected";
     amount := PNone;
     justification := PStr "No relevant policy clauses found for the query.";
     clause_mapping := PList [] |}.

(** The hits as [generate_response] reads them: each reference replaced by
    the object it designates. *)
Definition load_hits (h : Heap) (results : list (loc * Q)) : list hit :=
  omap (fun '(r, score) => (fun c => (c, score)) <$> chunk_objs h !! r) results.

Definition query (env : Env) (st : Heap * RAGPolicyQA) (user_query : string) (top_k : Z)
  : outcome QueryResult :=
  let '(h, self) := st in
  if negb (is_initialized self) then Raises (ValueError not_loaded_msg)
  else
    relevant_chunks ← semantic_search env h (embedding_engine self) user_query top_k;
    match relevant_chunks with
    | [] => Returns no_clauses_result
    | _ =>
        result ← generate_response env (llm_engine self) user_query
                   (load_hits h relevant_chunks);
        clauses ← py_iter (clause_mapping result);
        _ ← audit_clauses clauses;
        mret result
    end.

(** ** Vocabulary of the statements *)

(** [n] occurs in [h] as a contiguous piece. *)
Definition substring (n h : string) : Prop :=
  exists pre post, h = pre +:+ n +:+ post.

(** ** The currency values of a text *)

(** What is left of the string after the longest stretch of decimal digits
    and commas that starts it. *)
Fixpoint after_run (fuel : nat) (s : string) : string :=
  match fuel with
  | O => s
  | S fuel' =>
      match read_digit_or_comma s with
      | Some rest => after_run fuel' rest
      | None => s
      end
  end.

(** What is left of the string after a decimal point and two digits, when
    it starts with these; else the string. *)
Definition after_cents (s : string) : string :=
  match s with
  | String c r =>
      if Ascii.eqb c "."%char
      then match decimal_digit r with
           | Some (_, r1) =>
               match decimal_digit r1 with
               | Some (_, r2) => r2
               | None => s
               end
           | None => s
           end
      else s
  | EmptyString => s
  end.

(** The first number written in a text, and the text after it.  A number
    starts at the first decimal digit or comma of the text, whether a
    currency marker stands before it or not; it runs over the digits and
    commas that follow and over a decimal point with two digits after
    them. *)
Fixpoint first_number (s : string) : option (string * string) :=
  match read_digit_or_comma s with
  | Some _ =>
      let rest := after_cents (after_run (String.length s) s) in
      Some (take_str (String.length s - String.length rest) s, rest)
  | None =>
      match s with
      | String _ r => first_number r
      | EmptyString => None
      end
  end.

(** The numbers written in a text, from left to right. *)
Fixpoint numbers_from (fuel : nat) (s : string) : list string :=
  match fuel with
  | O => []
  | S fuel' =>
      match first_number s with
      | Some (number, rest) => number :: numbers_from fuel' rest
      | None => []
      end
  end.

Definition numbers_of (s : string) : list string :=
  numbers_from (String.length s) s.

(** The digits of a stretch of digits and commas, and what follows the
    stretch. *)
Fixpoint run_digits (fuel : nat) (s : string) : list nat * string :=
  match fuel with
  | O => ([], s)
  | S fuel' =>
      match s with
      | String c r =>
          if Ascii.eqb c ","%char then run_digits fuel' r
          else match decimal_digit s with
               | Some (d, rest) =>
                   let '(ds, tl) := run_digits fuel' rest in (d :: ds, tl)
               | None => ([], s)
               end
      | EmptyString => ([], s)
      end
  end.

(** The number that the digits [ds] write in base ten: each digit counts
    ten times the digit to its right. *)
Fixpoint decimal (ds : list nat) : N :=
  match ds with
  | [] => 0
  | d :: rest => N.of_nat d * 10 ^ N.of_nat (length rest) + decimal rest
  end.

(** The value that a written number denotes: its digits read in base ten,
    the commas apart, and the two digits after the point as hundredths.  A
    number without any digit denotes nothing. *)
Definition number_value (number : string) : option Q :=
  let '(ds, tl) := run_digits (String.length number) number in
  match tl with
  | EmptyString =>
      match ds with
      | [] => None
      | _ => Some (inject_Z (Z.of_N (decimal ds)))
      end
  | String c r =>
      if Ascii.eqb c "."%char
      then match decimal_digit r with
           | Some (d1, r1) =>
               match decimal_digit r1 with
               | Some (d2, EmptyString) =>
                   Some (Qmake (Z.of_N (decimal ds) * 100 + Z.of_nat (10 * d1 + d2)) 100)
               | _ => None
               end
           | None => None
           end
      else None
  end.

(** The currency values found in the hits: the value of every number
    written in the text of every hit, in and out of the plausible range. *)
Definition currency_values (relevant_chunks : list hit) : list Q :=
  flat_map (fun '(chunk, _) => omap number_value (numbers_of (text chunk)))
           relevant_chunks.


(** The value stored under a key of a dict value, if any. *)
Definition field_of (v : pyval) (key : string) : option pyval :=
  match v with
  | PDict d => dict_get d key
  | _ => None
  end.

(** [a] and [b] are the same character, or the capital and the small form
    of one letter of the alphabet (the capitals have the codes 65 to 90, and
    each small letter the code of its capital plus 32). *)
Definition same_letter (a b : ascii) : Prop :=
  a = b
  \/ exists n, 65 <= n <= 90
               /\ ((code a = n /\ code b = n + 32) \/ (code a = n + 32 /\ code b = n)).

(** [t] is [s] up to the case of its letters. *)
Fixpoint same_text (s t : string) : Prop :=
  match s, t with
  | EmptyString, EmptyString => True
  | String a s', String b t' => same_letter a b /\ same_text s' t'
  | _, _ => False
  end.

(** [keyword] occurs in [t] as a contiguous piece, in whatever case its
    letters are written there. *)
Definition occurs_ignoring_case (keyword t : string) : Prop :=
  exists pre mid post, t = pre +:+ mid +:+ post /\ same_text keyword mid.

(** A chunk whose text contains a rejection keyword, case ignored. *)
Definition has_rejection_keyword (chunk : DocumentChunk) : Prop :=
  exists keyword, In keyword rejection_keywords /\
                  occurs_ignoring_case keyword (text chunk).

(** A chunk with the given text; the other fields do not matter to the
    reasoning engine. *)
Definition chunk_of_text (t : string) : DocumentChunk :=
  {| text := t; page_number := 1; section := "General"; filename := "policy.pdf";
     chunk_id := "policy.pdf_p1_c1"; embedding := None |}.

(** What the program relies on from [np.argsort]: the indices of the
    scores, each once, in ascending order of score.  The order of equal
    scores is left open, as NumPy leaves it for the default sort kind. *)
Definition ascending (sims : list Q) (i j : nat) : Prop :=
  forall a b, sims !! i = Some a -> sims !! j = Some b -> (a <= b)%Q.

Definition argsort_spec (argsort : list Q -> list nat) : Prop :=
  forall sims, Permutation (argsort sims) (seq 0 (length sims)) /\
               StronglySorted (ascending sims) (argsort sims).

(** The hits are the chunks and the scores at the given positions of the
    corpus, in that order. *)
Definition hits_at (refs : list loc) (sims : list Q) (idxs : list nat)
           (hits : list (loc * Q)) : Prop :=
  Forall2 (fun idx hit => refs !! idx = Some hit.1 /\ sims !! idx = Some hit.2) idxs hits.

(** An index has been built: the engine holds a non-empty list of chunk
    objects and one stored vector per chunk. *)
Definition index_built (h : Heap) (self : EmbeddingEngine)
           (refs : list loc) (stored : list vector) : Prop :=
  list_objs h !! chunks self = Some refs /\
  embeddings self = Some stored /\
  refs <> [] /\
  length stored = length refs.

(** The object [c'] is the object [c] after a vector was assigned to its
    [embedding] attribute: [c'] carries [v] there, and every other field is
    as in [c]. *)
Definition embedded_as (v : vector) (c c' : DocumentChunk) : Prop :=
  embedding c' = Some v
  /\ text c' = text c
  /\ page_number c' = page_number c
  /\ section c' = section c
  /\ filename c' = filename c
  /\ chunk_id c' = chunk_id c.

(** The orchestrator state [Ready]: a document was processed successfully. *)
Definition Ready (st : Heap * RAGPolicyQA) : Prop :=
  is_initialized st.2 = true /\
  exists refs stored, index_built st.1 (embedding_engine st.2) refs stored.

(** ** Example environments and inputs *)

(** A stable insertion sort of the indices: what NumPy's default sort does
    on the short arrays of the examples (runs of at most 16 elements are
    sorted by insertion). *)
Definition score_at (sims : list Q) (i : nat) : Q := default 0%Q (sims !! i).

Fixpoint insert_index (sims : list Q) (i : nat) (sorted : list nat) : list nat :=
  match sorted with
  | [] => [i]
  | j :: rest =>
      if Qle_bool (score_at sims j) (score_at sims i)
      then j :: insert_index sims i rest
      else i :: j :: rest
  end.

(** The order the insertion sort maintains. *)
Definition score_le (sims : list Q) (i j : nat) : Prop :=
  (score_at sims i <= score_at sims j)%Q.

Definition insertion_argsort (sims : list Q) : list nat :=
  fold_left (fun sorted i => insert_index sims i sorted) (seq 0 (length sims)) [].

Definition coverage_page : string :=
  "COVERAGE DETAILS
Knee surgery is covered up to Rs. 150,000 after a waiting period of three months from the policy start date.".

Definition exclusions_page : string :=
  "Cosmetic procedures are not covered under this policy. The penalty for late premium payment is Rs. 500 per month.".

Definition unreadable_page : string :=
  "UNENCODABLE scanned annex: the text layer of this page is damaged beyond what the model accepts.".

(** A small world: three documents on disk, an embedding model that fails
    on the damaged annex, and no reachable provider. *)
Definition demo_env : Env :=
  {| fitz_pages := fun path =>
       if String.eqb path "policy.pdf" then Returns [coverage_page; exclusions_page]
       else if String.eqb path "twins.pdf" then Returns [exclusions_page; exclusions_page]
       else if String.eqb path "blank.pdf" then Returns ["   "]
       else if String.eqb path "annex.pdf" then Returns [unreadable_page]
       else Raises (FileNotFoundError path);
     model_encode := fun texts =>
       if existsb (contains "UNENCODABLE") texts
       then Raises (LibraryError "sentence_transformers")
       else Returns (map (fun t => [inject_Z (Z.of_nat (String.length t)); 1%Q]) texts);
     (* the dot product stands for the similarity; the examples only need
        equal vectors to score equal *)
     cosine := fun u v => fold_right Qplus 0%Q (zip_with Qmult u v);
     np_argsort := insertion_argsort;
     chat_completion := fun _ _ => Raises (LibraryError "openai");
     json_loads := fun _ => Raises JSONDecodeError;
     format_money := fun _ => "0.00" |}.

(** The same world with a provider whose reply parses to [reply]. *)
Definition env_with_reply (reply : pyval) : Env :=
  {| fitz_pages := fitz_pages demo_env;
     model_encode := model_encode demo_env;
     cosine := cosine demo_env;
     np_argsort := np_argsort demo_env;
     chat_completion := fun _ _ => Returns "reply";
     json_loads := fun _ => Returns reply;
     format_money := format_money demo_env |}.

Definition keyed : LLMReasoningEngine := {| api_key := Some "sk-test" |}.
Definition keyless : LLMReasoningEngine := {| api_key := None |}.


(** A reply with the four field names and values of the wrong types. *)
Definition mistyped_reply : pyval :=
  PDict [("decision", PNum 5%Q);
         ("amount", PStr "plenty");
         ("justification", PNone);
         ("clause_mapping", PNum 7%Q)].

Definition exclusion_hit : hit :=
  (chunk_of_text "Knee surgery is excluded during the first two years of the policy.",
   (9 # 10)%Q).

(** The orchestrator after [process_document] on a document of the demo
    world, starting from a fresh orchestrator without API key. *)
Definition loaded (path : string) : Heap * RAGPolicyQA :=
  (process_document demo_env path (RAGPolicyQA_init empty_heap None)).2.

(** Two chunk objects and the list that holds them, as a caller of
    [create_embeddings] has them: the list is object 2, its elements are
    objects 0 and 1. *)
Definition callers_heap : Heap :=
  (new_list (new_chunks empty_heap
               [chunk_of_text "Knee surgery is covered after three months.";
                chunk_of_text "Cosmetic procedures are not covered."]).2
            [0; 1]).2.

(** An engine that holds another, empty, list (object 7, absent). *)
Definition idle_engine : EmbeddingEngine := {| chunks := 7; embeddings := None |}.

(** The orchestrator after a successful load of "policy.pdf" followed by a
    reload of "annex.pdf" on which the embedding model fails. *)
Definition after_failed_reload : Heap * RAGPolicyQA :=
  (process_document demo_env "annex.pdf" (loaded "policy.pdf")).2.

(** ** Vocabulary of the further properties *)



(** Every character of the string is a decimal digit. *)
Fixpoint all_digits (s : string) : bool :=
  match s with
  | EmptyString => true
  | String c r => is_digit c && all_digits r
  end.





(** A call returned, rather than raised. *)
Definition returned {A} (x : outcome A) : bool :=
  match x with
  | Returns _ => true
  | Raises _ => false
  end.

(** A series of [process_document] calls on one orchestrator: the outcomes
    in order, and the final state. *)
Fixpoint load_all (env : Env) (paths : list string) (st : Heap * RAGPolicyQA)
  : list (outcome unit) * (Heap * RAGPolicyQA) :=
  match paths with
  | [] => ([], st)
  | pdf_path :: rest =>
      let '(r, st) := process_document env pdf_path st in
      let '(rs, st) := load_all env rest st in
      (r :: rs, st)
  end.

(** The citations of a result can be audited: the value is iterable and
    every item is a dict with a "source" entry. *)
Definition cites_sources (v : pyval) : Prop :=
  exists items, py_iter v = Returns items
                /\ Forall (fun c => is_Some (field_of c "source")) items.

(** ** The Flask front end ([flask_app.py]): queries and their history

    The module-level globals [rag_system], [current_document] and
    [query_history] are the fields of [app]; the store holds the objects of
    the RAG system.  A request body is read as the page script sends it: a
    JSON object whose ["query"] is a string and whose ["top_k"] is an
    integer, each possibly absent.  The three readings of the clock made
    while a query is served are given with the request. *)

Module FlaskApp.

Record history_entry : Type := mkEntry
  { entry_query : string;
    entry_result : QueryResult;
    entry_query_time : Q;
    entry_timestamp : Q }.

Record app : Type := mkApp
  { store : Heap;
    rag_system : option RAGPolicyQA;
    current_document : option string;
    query_history : list history_entry }.

Record query_request : Type := mkRequest
  { req_query : option string;
    req_top_k : option Z }.

(** The readings of [time.time()]: before the query, after it, and when the
    history entry is built. *)
Record clock : Type := mkClock
  { t_start : Q; t_end : Q; t_entry : Q }.

Inductive response : Type :=
| Ok200 (asked : string) (result : QueryResult) (query_time : Q)
| Error400 (message : string)
| Error500 (e : exn).

(** Truth value of [current_document]: [None] and the empty name are false. *)
Definition document_loaded (a : app) : bool :=
  match current_document a with
  | Some (String _ _) => true
  | _ => false
  end.

Definition with_history (a : app) (h : list history_entry) : app :=
  {| store := store a; rag_system := rag_system a;
     current_document := current_document a; query_history := h |}.

(** The route [/query]. *)
Definition process_query (env : Env) (now : clock) (req : query_request) (a : app)
  : response * app :=
  match rag_system a with
  | None => (Error400 "No document loaded. Please upload a PDF first.", a)
  | Some system =>
      if negb (document_loaded a)
      then (Error400 "No document loaded. Please upload a PDF first.", a)
      else
        let asked := strip (default EmptyString (req_query req)) in
        let top_k := default 5%Z (req_top_k req) in
        if negb (PDFProcessor.nonempty asked)
        then (Error400 "Query cannot be empty", a)
        else
          match query env (store a, system) asked top_k with
          | Returns result =>
              let query_time := (t_end now - t_start now)%Q in
              let query_entry :=
                {| entry_query := asked; entry_result := result;
                   entry_query_time := query_time; entry_timestamp := t_entry now |} in
              let history := query_history a ++ [query_entry] in
              let history := if 50 <? length history then last_n 50 history else history in
              (Ok200 asked result query_time, with_history a history)
          | Raises e => (Error500 e, a)
          end
  end.

(** The route [/history]: the last ten entries. *)
Definition get_history (a : app) : list history_entry :=
  last_n 10 (query_history a).

(** The route [/clear_history]. *)
Definition clear_history (a : app) : app := with_history a [].

(** A request to the application, and the application after a series of
    requests. *)
Inductive request : Type :=
| Query (now : clock) (req : query_request)
| ClearHistory.

Definition serve (env : Env) (a : app) (r : request) : app :=
  match r with
  | Query now req => (process_query env now req a).2
  | ClearHistory => clear_history a
  end.

Definition is_ok (r : response) : bool :=
  match r with
  | Ok200 _ _ _ => true
  | _ => false
  end.

End FlaskApp.

(** ** The JSON endpoint of [rag_policy_qa.py]

    The global [rag_system] is created on the first complete request; its
    attribute [current_document] exists only once a document was processed
    through the endpoint.  The body is read as an object whose
    ["policy_path"] and ["query"] are strings, each possibly absent. *)

Module Api.

Record system : Type := mkSystem
  { rag : RAGPolicyQA;
    current_document : option string }.

Record state : Type := mkState
  { store : Heap;
    rag_system : option system }.

Record payload : Type := mkPayload
  { policy_path : option string;
    query_text : option string }.

Inductive response : Type :=
| Ok200 (result : QueryResult)
| Error400 (message : string)
| Error500 (e : exn).

(** The test that decides whether the document is processed. *)
Definition must_process (s : system) (path : string) : bool :=
  negb (is_initialized (rag s))
  || match current_document s with
     | None => true
     | Some doc => negb (String.eqb doc path)
     end.

(** The route [/query]; [env_key] is the value of [OPENAI_API_KEY] in the
    process environment, read when the system is created. *)
Definition api_query (env : Env) (env_key : option string) (data : payload) (st : state)
  : response * state :=
  match policy_path data, query_text data with
  | Some path, Some asked =>
      let '(h, s) :=
        match rag_system st with
        | Some s => (store st, s)
        | None =>
            let '(h, r) := RAGPolicyQA_init (store st) env_key in
            (h, {| rag := r; current_document := None |})
        end in
      let '(loaded, (h, s)) :=
        if must_process s path
        then
          let '(r, (h, system)) := process_document env path (h, rag s) in
          match r with
          | Returns _ => (Returns tt, (h, {| rag := system; current_document := Some path |}))
          | Raises e =>
              (Raises e, (h, {| rag := system; current_document := current_document s |}))
          end
        else (Returns tt, (h, s)) in
      match loaded with
      | Raises e => (Error500 e, {| store := h; rag_system := Some s |})
      | Returns _ =>
          match query env (h, rag s) asked 5 with
          | Returns result => (Ok200 result, {| store := h; rag_system := Some s |})
          | Raises e => (Error500 e, {| store := h; rag_system := Some s |})
          end
      end
  | _, _ => (Error400 "Missing required fields: policy_path, query", st)
  end.

End Api.

(** Example requests to the JSON endpoint. *)
Definition first_request : Api.payload :=
  {| Api.policy_path := Some "policy.pdf"; Api.query_text := Some "knee surgery" |}.

Definition second_request : Api.payload :=
  {| Api.policy_path := Some "policy.pdf"; Api.query_text := Some "late payment" |}.

Definition fresh_api : Api.state :=
  {| Api.store := empty_heap; Api.rag_system := None |}.







(** Three clauses with amounts: several values in one text, with the three
    currency markers, commas and fractions; a value written in Devanagari
    digits; and values that all lie outside the plausible range. *)
Definition rates_clause : string :=
  "Room rent is paid up to Rs. 2,500.50 a day, ICU charges up to INR 7500 and surgery up to ₹ 1,20,000.75, in 12 instalments.".

Definition premium_clause : string :=
  "The premium is ₹ १५,००० a year.".

Definition copay_clause : string :=
  "A co-payment of Rs. 99.99 applies to each of 2 visits; the sum insured is 25,000,000.".


(** ** Vocabulary of the analysis of the currency pattern *)

(** A comma or a point. *)
Definition is_mark (c : ascii) : bool := Ascii.eqb c ","%char || Ascii.eqb c "."%char.

(** One decimal digit as it stands in a text: the bytes [ch] of a character
    that is read as the digit [v] whatever follows it, none of which is a
    comma or a point. *)
Definition digit_char (ch : string) (v : nat) : Prop :=
  ch <> EmptyString
  /\ existsb_str is_mark ch = false
  /\ forall r, decimal_digit (ch +:+ r) = Some (v, r).

(** A stretch of digits and commas, with the digits it holds. *)
Inductive run_of : string -> list nat -> Prop :=
| run_end : run_of EmptyString []
| run_comma (s : string) (ds : list nat) :
    run_of s ds -> run_of (String ","%char s) ds
| run_digit (ch : string) (v : nat) (s : string) (ds : list nat) :
    digit_char ch v -> run_of s ds -> run_of (ch +:+ s) (v :: ds).

(** A row of digits, with the digits it holds. *)
Inductive plain_of : string -> list nat -> Prop :=
| plain_end : plain_of EmptyString []
| plain_digit (ch : string) (v : nat) (s : string) (ds : list nat) :
    digit_char ch v -> plain_of s ds -> plain_of (ch +:+ s) (v :: ds).

(** The fraction of a number: nothing, or a point and two digits. *)
Inductive cents_of : string -> option (nat * nat) -> Prop :=
| cents_none : cents_of EmptyString None
| cents_some (c1 c2 : string) (d1 d2 : nat) :
    digit_char c1 d1 -> digit_char c2 d2 ->
    cents_of (String "."%char (c1 +:+ c2)) (Some (d1, d2)).

(** A number of a text is a stretch of digits and commas with, or
    without, a fraction. *)
Definition number_shape (number : string) : Prop :=
  exists run ds cents f,
    number = run +:+ cents /\ run_of run ds /\ cents_of cents f.

(** Every character of the string is in the class. *)
Fixpoint forallb_str (q : ascii -> bool) (s : string) : bool :=
  match s with
  | EmptyString => true
  | String c r => q c && forallb_str q r
  end.

(** A pattern made of one-byte classes within [q], without group. *)
Fixpoint built_from (q : ascii -> bool) (r : Re.regex) : Prop :=
  match r with
  | Re.Eps => True
  | Re.Chr p => forall c, p c = true -> q c = true
  | Re.Tok _ => False
  | Re.Seq r1 r2 => built_from q r1 /\ built_from q r2
  | Re.Alt r1 r2 => built_from q r1 /\ built_from q r2
  | Re.Star r1 => built_from q r1
  | Re.Group _ => False
  end.

(** The bytes a currency marker is made of: the letters of "rs" and "inr"
    in both cases, the point, white space, and the three bytes of the
    rupee sign. *)
Definition marker_byte (c : ascii) : bool :=
  is_space c
  || existsb (Ascii.eqb (lower_char c)) (list_ascii_of_string "rsin.₹").

(** The 256 bytes. *)
Definition all_bytes : list ascii := map ascii_of_nat (seq 0 256).

(** The continuation of [re.search]: any match will do. *)
Definition whole_match (rest : string) (cap : option string) : option (string * option string) :=
  Some (rest, cap).

(** * Properties *)

Section StringFacts.

Lemma append_cons (c : ascii) (s t : string) :
  String c s +:+ t = String c (s +:+ t).
Proof. reflexivity. Qed.

Lemma append_nil (t : string) : EmptyString +:+ t = t.
Proof. reflexivity. Qed.

Lemma append_nil_r (t : string) : t +:+ EmptyString = t.
Proof.
  induction t as [|c t IH]; [done|]. by rewrite append_cons, IH.
Qed.

Lemma prefix_iff (n h : string) :
  startswith n h = true <-> exists post, h = n +:+ post.
Proof.
  revert h. induction n as [|c n IH]; intros h; simpl.
  - split; [intros _; by exists h | done].
  - destruct h as [|c' h].
    + split; [done | intros [post H]; discriminate].
    + rewrite andb_true_iff, Ascii.eqb_eq, IH. split.
      * intros [-> [post ->]]. by exists post.
      * intros [post H]. injection H as -> ->. split; [done | by exists post].
Qed.

Lemma contains_iff (n h : string) :
  contains n h = true <-> substring n h.
Proof.
  induction h as [|c h IH]; simpl.
  - rewrite orb_false_r, prefix_iff. split.
    + intros [post H]. by exists EmptyString, post.
    + intros [pre [post H]]. destruct pre; [by exists post | discriminate].
  - rewrite orb_true_iff, prefix_iff, IH. split.
    + intros [[post H] | [pre [post H]]].
      * by exists EmptyString, post.
      * exists (String c pre), post. simpl. by rewrite H.
    + intros [pre [post H]]. destruct pre as [|c' pre]; simpl in H.
      * left. by exists post.
      * right. exists pre, post. by injection H.
Qed.

Lemma take_str_prefix (k : nat) (t : string) :
  exists post, t = take_str k t +:+ post.
Proof.
  revert t. induction k as [|k IH]; intros t.
  - exists t. by destruct t.
  - destruct t as [|c t]; [by exists EmptyString |].
    destruct (IH t) as [post H]. exists post. simpl. rewrite append_cons. by f_equal.
Qed.

Lemma append_assoc (a b c : string) : (a +:+ b) +:+ c = a +:+ b +:+ c.
Proof. induction a as [|x a IH]; [done|]. by rewrite !append_cons, IH. Qed.

Lemma length_append (a b : string) :
  String.length (a +:+ b) = String.length a + String.length b.
Proof. induction a as [|c a IH]; [done|]. rewrite append_cons. simpl. by rewrite IH. Qed.

End StringFacts.

(** ** The currency pattern *)

Section Readers.


Lemma high_byte_no_mark (c : ascii) :
  (byte c <? 128)%N = false -> is_mark c = false.
Proof.
  intros H. unfold is_mark.
  destruct (Ascii.eqb_spec c ","%char) as [->|_]; [done|].
  by destruct (Ascii.eqb_spec c "."%char) as [->|_].
Qed.

Lemma continuation_no_mark (c : ascii) (x : N) :
  continuation c = Some x -> is_mark c = false.
Proof.
  intros H. unfold is_mark.
  destruct (Ascii.eqb_spec c ","%char) as [->|_]; [done|].
  by destruct (Ascii.eqb_spec c "."%char) as [->|_].
Qed.

Lemma digit_code_no_mark (c : ascii) (v : nat) :
  decimal_of_code (byte c) = Some v -> is_mark c = false.
Proof.
  intros H. unfold is_mark.
  destruct (Ascii.eqb_spec c ","%char) as [->|_]; [done|].
  by destruct (Ascii.eqb_spec c "."%char) as [->|_].
Qed.

Lemma shortest_Some (least cp cp' : N) (rest rest' : string) :
  shortest least cp rest = Some (cp', rest') ->
  cp' = cp /\ rest' = rest /\ forall r, shortest least cp r = Some (cp, r).
Proof.
  unfold shortest. destruct (_ && _); [|done]. by intros [= <- <-].
Qed.

Lemma decimal_digit_char (s : string) (v : nat) (rest : string) :
  decimal_digit s = Some (v, rest) ->
  exists ch, s = ch +:+ rest /\ digit_char ch v.
Proof.
  unfold decimal_digit.
  destruct (utf8_head s) as [[cp tl]|] eqn:Hhead; [|done].
  destruct (decimal_of_code cp) as [v'|] eqn:Hdec; [|done].
  simpl. intros [= -> ->].
  unfold utf8_head in Hhead. destruct s as [|c0 r0]; [done|].
  destruct (byte c0 <? 128)%N eqn:H1.
  { injection Hhead as <- <-. exists (String c0 EmptyString).
    split; [done|]. split; [done|]. split.
    - simpl. by rewrite (digit_code_no_mark c0 v Hdec).
    - intros r. unfold decimal_digit, utf8_head. simpl. by rewrite H1, Hdec. }
  pose proof (high_byte_no_mark c0 H1) as Hm0.
  destruct (byte c0 <? 192)%N eqn:H2; [done|].
  destruct (byte c0 <? 224)%N eqn:H3.
  { destruct r0 as [|c1 r1]; [done|].
    destruct (continuation c1) as [x1|] eqn:Hc1; [|done].
    apply shortest_Some in Hhead as (-> & -> & Hshort).
    exists (String c0 (String c1 EmptyString)).
    split; [done|]. split; [done|]. split.
    - simpl. by rewrite Hm0, (continuation_no_mark c1 x1 Hc1).
    - intros r. unfold decimal_digit, utf8_head. simpl.
      by rewrite H1, H2, H3, Hc1, Hshort, Hdec. }
  destruct (byte c0 <? 240)%N eqn:H4.
  { destruct r0 as [|c1 [|c2 r2]]; [done..|].
    destruct (continuation c1) as [x1|] eqn:Hc1; [|done].
    destruct (continuation c2) as [x2|] eqn:Hc2; [|done].
    apply shortest_Some in Hhead as (-> & -> & Hshort).
    exists (String c0 (String c1 (String c2 EmptyString))).
    split; [done|]. split; [done|]. split.
    - simpl. by rewrite Hm0, (continuation_no_mark c1 x1 Hc1),
        (continuation_no_mark c2 x2 Hc2).
    - intros r. unfold decimal_digit, utf8_head. simpl.
      by rewrite H1, H2, H3, H4, Hc1, Hc2, Hshort, Hdec. }
  destruct (byte c0 <? 248)%N eqn:H5; [|done].
  destruct r0 as [|c1 [|c2 [|c3 r3]]]; [done..|].
  destruct (continuation c1) as [x1|] eqn:Hc1; [|done].
  destruct (continuation c2) as [x2|] eqn:Hc2; [|done].
  destruct (continuation c3) as [x3|] eqn:Hc3; [|done].
  apply shortest_Some in Hhead as (-> & -> & Hshort).
  exists (String c0 (String c1 (String c2 (String c3 EmptyString)))).
  split; [done|]. split; [done|]. split.
  - simpl. by rewrite Hm0, (continuation_no_mark c1 x1 Hc1),
      (continuation_no_mark c2 x2 Hc2), (continuation_no_mark c3 x3 Hc3).
  - intros r. unfold decimal_digit, utf8_head. simpl.
    by rewrite H1, H2, H3, H4, H5, Hc1, Hc2, Hc3, Hshort, Hdec.
Qed.

End Readers.

Section Engine.

Context {A : Type}.

Lemma read_digit_or_comma_shorter (s rest : string) :
  read_digit_or_comma s = Some rest -> String.length rest < String.length s.
Proof.
  destruct s as [|c r]; [done|]. unfold read_digit_or_comma.
  destruct (Ascii.eqb c ","%char).
  - intros [= <-]. simpl. lia.
  - unfold read_digit. destruct (decimal_digit (String c r)) as [[v tl]|] eqn:Hd; [|done].
    intros [= <-].
    apply decimal_digit_char in Hd as (ch & Heq & Hne & _).
    rewrite Heq, length_append. destruct ch; [done|]. simpl. lia.
Qed.

(** Greedy repetition of the class of digits and commas, before a
    continuation that accepts whatever it is given: the whole stretch is
    taken. *)
Lemma rmatch_run (k : string -> option string -> option A) :
  (forall s cap, is_Some (k s cap)) ->
  forall s cap,
    Re.rmatch (Re.Star (Re.Tok read_digit_or_comma)) s cap k
    = k (after_run (String.length s) s) cap.
Proof.
  intros Hk s cap. simpl.
  match goal with
  | |- ?loop (String.length s) s cap = _ =>
      enough (forall n s cap, String.length s <= n ->
                              loop n s cap = k (after_run n s) cap) as H
        by (by apply H)
  end.
  clear s cap. induction n as [|n IH]; intros s cap Hn.
  - done.
  - simpl. destruct (read_digit_or_comma s) as [s1|] eqn:Hread; [|done].
    pose proof (read_digit_or_comma_shorter s s1 Hread) as Hlt.
    replace (String.length s1 <? String.length s) with true
      by (symmetry; by apply Nat.ltb_lt).
    rewrite IH by lia. by destruct (Hk (after_run n s1) cap) as [x ->].
Qed.

End Engine.

Section Number.

Context {A : Type}.

Lemma after_run_shorter (n : nat) (s : string) :
  String.length (after_run n s) <= String.length s.
Proof.
  revert s. induction n as [|n IH]; intros s; simpl; [done|].
  destruct (read_digit_or_comma s) as [s1|] eqn:Hread; [|done].
  pose proof (read_digit_or_comma_shorter s s1 Hread). specialize (IH s1). lia.
Qed.

(** More fuel than the length of the string changes nothing. *)
Lemma after_run_fuels (n m : nat) (s : string) :
  String.length s <= n -> String.length s <= m -> after_run n s = after_run m s.
Proof.
  revert m s. induction n as [|n IH]; intros m s Hn Hm.
  - destruct s; [by destruct m | simpl in Hn; lia].
  - destruct m as [|m]; [destruct s; [done | simpl in Hm; lia]|].
    simpl. destruct (read_digit_or_comma s) as [s1|] eqn:Hread; [|done].
    pose proof (read_digit_or_comma_shorter s s1 Hread) as Hlt.
    apply IH; lia.
Qed.

Lemma after_run_fuel (n : nat) (s : string) :
  String.length s <= n -> after_run n s = after_run (String.length s) s.
Proof. intros Hn. by apply after_run_fuels. Qed.

Lemma after_run_stops (n : nat) (s : string) :
  String.length s <= n -> read_digit_or_comma (after_run n s) = None.
Proof.
  revert s. induction n as [|n IH]; intros s Hn.
  - destruct s; [done | simpl in Hn; lia].
  - simpl. destruct (read_digit_or_comma s) as [s1|] eqn:Hread; [|done].
    pose proof (read_digit_or_comma_shorter s s1 Hread). apply IH. lia.
Qed.

Lemma rmatch_tok (read : string -> option string) (s : string) (cap : option string)
      (k : string -> option string -> option A) :
  Re.rmatch (Re.Tok read) s cap k
  = match read s with
    | Some s' => k s' cap
    | None => None
    end.
Proof. done. Qed.

Lemma chr_ci_point (c : ascii) :
  Ascii.eqb (lower_char c) (lower_char "."%char) = Ascii.eqb c "."%char.
Proof. by destruct c as [[] [] [] [] [] [] [] []]. Qed.

(** The optional fraction before a continuation that accepts whatever it
    is given: a point and two digits are taken when they are there. *)
Lemma rmatch_cents (k : string -> option string -> option A) (s : string)
      (cap : option string) :
  (forall s cap, is_Some (k s cap)) ->
  Re.rmatch (Re.Opt (Re.Seq (Re.chr_ci "."%char)
                       (Re.Seq (Re.Tok read_digit) (Re.Tok read_digit)))) s cap k
  = k (after_cents s) cap.
Proof.
  intros Hk. unfold Re.Opt. cbn [Re.rmatch Re.chr_ci]. unfold after_cents, read_digit.
  destruct s as [|c r]; [done|]. rewrite chr_ci_point.
  destruct (Ascii.eqb c "."%char); [|done].
  destruct (decimal_digit r) as [[d1 r1]|]; [|done]. cbn [fmap option_fmap option_map snd].
  destruct (decimal_digit r1) as [[d2 r2]|]; [|done]. cbn [fmap option_fmap option_map snd].
  by destruct (Hk r2 cap) as [x ->].
Qed.

(** The capture group of the currency pattern at the head of a string:
    it matches where a digit or a comma stands, and then takes the whole
    stretch of digits and commas and the fraction after it. *)
Lemma rmatch_number (k : string -> option string -> option A) (s : string)
      (cap : option string) :
  (forall s cap, is_Some (k s cap)) ->
  Re.rmatch NUMBER s cap k
  = match read_digit_or_comma s with
    | Some _ =>
        let rest := after_cents (after_run (String.length s) s) in
        k rest (Some (take_str (String.length s - String.length rest) s))
    | None => None
    end.
Proof.
  intros Hk. unfold NUMBER, Re.Plus.
  change (Re.rmatch (Re.Group ?r) s cap k)
    with (Re.rmatch r s cap
            (fun s1 _ => k s1 (Some (take_str (String.length s - String.length s1) s)))).
  set (k' := fun (s1 : string) (_ : option string) =>
               k s1 (Some (take_str (String.length s - String.length s1) s))).
  change (Re.rmatch (Re.Seq (Re.Seq ?t ?st) ?o) s cap k')
    with (Re.rmatch t s cap
            (fun s0 cap0 => Re.rmatch st s0 cap0 (fun s1 cap1 => Re.rmatch o s1 cap1 k'))).
  assert (forall s cap, is_Some (k' s cap)) as Hk' by (intros; apply Hk).
  rewrite rmatch_tok.
  destruct (read_digit_or_comma s) as [s0|] eqn:Hread; [|done].
  rewrite rmatch_run.
  - rewrite (rmatch_cents k' _ cap Hk'). unfold k'. cbn zeta.
    pose proof (read_digit_or_comma_shorter s s0 Hread) as Hlt.
    destruct s as [|c r]; [done|].
    change (after_run (String.length (String c r)) (String c r))
      with (after_run (S (String.length r)) (String c r)).
    cbn [after_run]. rewrite Hread.
    simpl in Hlt. rewrite (after_run_fuel (String.length r) s0) by lia. done.
  - intros s1 cap1. rewrite (rmatch_cents k' s1 cap1 Hk'). apply Hk'.
Qed.

End Number.

Section Marker.

Context {A : Type}.

Lemma forall_bytes (P : ascii -> bool) :
  forallb P all_bytes = true -> forall c, P c = true.
Proof.
  intros H c. rewrite forallb_forall in H. apply H.
  rewrite <- (ascii_nat_embedding c). apply in_map, in_seq.
  pose proof (nat_ascii_bounded c). lia.
Qed.

Lemma forallb_str_app (q : ascii -> bool) (a b : string) :
  forallb_str q (a +:+ b) = forallb_str q a && forallb_str q b.
Proof.
  induction a as [|c a IH]; [done|]. rewrite append_cons. simpl.
  by rewrite IH, andb_assoc.
Qed.

(** A pattern built from the classes within [q] consumes characters of
    [q] only, and hands the rest to its continuation. *)
Lemma rmatch_built_from (q : ascii -> bool) (r : Re.regex) :
  built_from q r ->
  forall (k : string -> option string -> option A) s cap x,
    Re.rmatch r s cap k = Some x ->
    exists pre s1, s = pre +:+ s1 /\ forallb_str q pre = true /\ k s1 cap = Some x.
Proof.
  induction r as [|p|read|r1 IH1 r2 IH2|r1 IH1 r2 IH2|r1 IH1|r1 IH1];
    intros Hq k s cap x H; simpl in Hq, H.
  - by exists EmptyString, s.
  - destruct s as [|c s']; [done|]. destruct (p c) eqn:Hp; [|done].
    exists (String c EmptyString), s'. split; [done|]. split; [|done].
    simpl. by rewrite (Hq c Hp).
  - done.
  - destruct Hq as [Hq1 Hq2].
    apply (IH1 Hq1) in H as (pre1 & s1 & -> & Hpre1 & H).
    apply (IH2 Hq2) in H as (pre2 & s2 & -> & Hpre2 & H).
    exists (pre1 +:+ pre2), s2. split; [by rewrite append_assoc|].
    split; [|done]. by rewrite forallb_str_app, Hpre1, Hpre2.
  - destruct Hq as [Hq1 Hq2]. unfold Re.orelse in H.
    destruct (Re.rmatch r1 s cap k) eqn:H1.
    + injection H as ->. by apply (IH1 Hq1) in H1.
    + by apply (IH2 Hq2) in H.
  - revert H. generalize (String.length s). intros n. revert s cap.
    induction n as [|n IHn]; intros s cap H.
    + by exists EmptyString, s.
    + unfold Re.orelse in H.
      match type of H with
      | match ?m with _ => _ end = _ => destruct m as [y|] eqn:Hm
      end.
      * injection H as ->.
        apply (IH1 Hq) in Hm as (pre1 & s1 & -> & Hpre1 & Hm).
        destruct (String.length s1 <? String.length (pre1 +:+ s1)); [|done].
        apply IHn in Hm as (pre2 & s2 & -> & Hpre2 & Hm).
        exists (pre1 +:+ pre2), s2. split; [by rewrite append_assoc|].
        split; [|done]. by rewrite forallb_str_app, Hpre1, Hpre2.
      * by exists EmptyString, s.
  - done.
Qed.

Lemma class_within (p q : ascii -> bool) :
  forallb (fun c => implb (p c) (q c)) all_bytes = true ->
  forall c, p c = true -> q c = true.
Proof.
  intros H c Hp.
  pose proof (forall_bytes _ H c) as H'. simpl in H'. by rewrite Hp in H'.
Qed.

Lemma marker_built : built_from marker_byte CURRENCY_MARKER.
Proof.
  unfold CURRENCY_MARKER, Re.Opt. cbn [built_from Re.lit_ci Re.chr_ci].
  repeat split; try (apply class_within; by vm_compute).
Qed.

End Marker.

Section MarkerBytes.

Lemma continuation_bound (c : ascii) (x : N) :
  continuation c = Some x -> (x < 64)%N.
Proof.
  unfold continuation. destruct (_ && _) eqn:H; [|done]. intros [= <-].
  apply andb_true_iff in H as [H1 H2].
  apply N.leb_le in H1. apply N.ltb_lt in H2. lia.
Qed.

(** No decimal digit has its code between U+2000 and U+2FFF, where the
    rupee sign is. *)
Lemma decimal_of_code_gap (cp : N) :
  (8192 <= cp < 12288)%N -> decimal_of_code cp = None.
Proof.
  intros Hcp. unfold decimal_of_code.
  destruct (List.find _ decimal_zeros) as [zero|] eqn:Hfind; [|done].
  apply find_some in Hfind as [Hin Htest].
  apply andb_true_iff in Htest as [H1 H2].
  apply N.leb_le in H1. apply N.ltb_lt in H2.
  unfold decimal_zeros in Hin. simpl in Hin.
  repeat (destruct Hin as [<-|Hin]; [lia|]). done.
Qed.

Lemma rupee_lead_no_digit (r : string) :
  decimal_digit (String "226"%char r) = None.
Proof.
  unfold decimal_digit, utf8_head.
  change (byte "226"%char) with 226%N. cbn [N.ltb N.compare Pos.compare Pos.compare_cont].
  destruct r as [|c1 [|c2 r2]]; [done..|].
  destruct (continuation c1) as [x1|] eqn:H1; [|done].
  destruct (continuation c2) as [x2|] eqn:H2; [|done].
  apply continuation_bound in H1, H2.
  unfold shortest. destruct (_ && _); [|done].
  rewrite decimal_of_code_gap; [done | lia].
Qed.

Lemma marker_byte_cases (c : ascii) :
  marker_byte c = true ->
  ((byte c <? 128)%N = true /\ Ascii.eqb c ","%char = false
   /\ decimal_of_code (byte c) = None)
  \/ ((byte c <? 128)%N = false /\ (byte c <? 192)%N = true)
  \/ c = "226"%char.
Proof.
  pose proof (forall_bytes
    (fun c => implb (marker_byte c)
                ((byte c <? 128)%N && negb (Ascii.eqb c ","%char)
                 && match decimal_of_code (byte c) with None => true | _ => false end
                 || negb (byte c <? 128)%N && (byte c <? 192)%N
                 || Ascii.eqb c "226"%char))) as H.
  specialize (H ltac:(by vm_compute) c). simpl in H.
  intros Hm. rewrite Hm in H. simpl in H.
  apply orb_true_iff in H as [H|H]; [apply orb_true_iff in H as [H|H]|].
  - left. apply andb_true_iff in H as [H H3]. apply andb_true_iff in H as [H1 H2].
    split; [done|]. split; [by destruct (Ascii.eqb c ",")|].
    by destruct (decimal_of_code (byte c)).
  - right. left. apply andb_true_iff in H as [H1 H2].
    split; [by destruct (byte c <? 128)%N | done].
  - right. right. by apply Ascii.eqb_eq.
Qed.

(** No number starts at a byte of a currency marker. *)
Lemma marker_byte_no_number (c : ascii) (r : string) :
  marker_byte c = true -> read_digit_or_comma (String c r) = None.
Proof.
  intros Hm. unfold read_digit_or_comma, read_digit.
  destruct (marker_byte_cases c Hm) as [(H1 & H2 & H3) | [(H1 & H2) | ->]].
  - rewrite H2. unfold decimal_digit, utf8_head. by rewrite H1, H3.
  - destruct (Ascii.eqb_spec c ","%char) as [->|_]; [done|].
    unfold decimal_digit, utf8_head. by rewrite H1, H2.
  - change (Ascii.eqb "226"%char ","%char) with false. cbn iota.
    by rewrite rupee_lead_no_digit.
Qed.

End MarkerBytes.

Section AmountSearch.

Lemma first_number_unfold (s : string) :
  first_number s
  = match read_digit_or_comma s with
    | Some _ =>
        let rest := after_cents (after_run (String.length s) s) in
        Some (take_str (String.length s - String.length rest) s, rest)
    | None =>
        match s with
        | String _ r => first_number r
        | EmptyString => None
        end
    end.
Proof. by destruct s. Qed.

Lemma first_number_skip (pre s : string) :
  forallb_str marker_byte pre = true -> first_number (pre +:+ s) = first_number s.
Proof.
  induction pre as [|c pre IH]; [done|]. cbn [forallb_str].
  intros [Hc Hpre]%andb_true_iff.
  rewrite append_cons, first_number_unfold.
  by rewrite (marker_byte_no_number c _ Hc), IH.
Qed.

Lemma decimal_digit_shorter (s rest : string) (v : nat) :
  decimal_digit s = Some (v, rest) -> String.length rest < String.length s.
Proof.
  intros (ch & -> & Hne & _)%decimal_digit_char.
  rewrite length_append. destruct ch; [done|]. simpl. lia.
Qed.

Lemma after_cents_shorter (s : string) :
  String.length (after_cents s) <= String.length s.
Proof.
  unfold after_cents. destruct s as [|c r]; [done|].
  destruct (Ascii.eqb c "."%char); [|done].
  destruct (decimal_digit r) as [[d1 r1]|] eqn:H1; [|done].
  destruct (decimal_digit r1) as [[d2 r2]|] eqn:H2; [|done].
  apply decimal_digit_shorter in H1, H2. simpl. lia.
Qed.

(** Where a number starts, it takes at least one character. *)
Lemma number_shorter (s s0 : string) :
  read_digit_or_comma s = Some s0 ->
  String.length (after_cents (after_run (String.length s) s)) < String.length s.
Proof.
  intros Hread. pose proof (read_digit_or_comma_shorter s s0 Hread) as Hlt.
  destruct s as [|c r]; [done|].
  change (after_run (String.length (String c r)) (String c r))
    with (after_run (S (String.length r)) (String c r)).
  cbn [after_run]. rewrite Hread.
  pose proof (after_cents_shorter (after_run (String.length r) s0)).
  pose proof (after_run_shorter (String.length r) s0). lia.
Qed.

Lemma rmatch_amount_some (s rest : string) (cap : option string) :
  Re.rmatch AMOUNT s None whole_match = Some (rest, cap) ->
  exists pre s1,
    s = pre +:+ s1 /\ forallb_str marker_byte pre = true
    /\ Re.rmatch NUMBER s1 None whole_match = Some (rest, cap).
Proof.
  unfold AMOUNT, Re.Opt.
  change (Re.rmatch (Re.Seq (Re.Alt ?m Re.Eps) ?n) s None whole_match)
    with (Re.orelse (Re.rmatch m s None (fun s1 cap1 => Re.rmatch n s1 cap1 whole_match))
            (Re.rmatch n s None whole_match)).
  unfold Re.orelse.
  destruct (Re.rmatch CURRENCY_MARKER s None _) as [x|] eqn:Hm.
  - intros [= ->]. by apply (rmatch_built_from _ _ marker_built) in Hm.
  - intros H. by exists EmptyString, s.
Qed.

Lemma rmatch_amount_none (s : string) :
  Re.rmatch AMOUNT s None whole_match = None ->
  Re.rmatch NUMBER s None whole_match = None.
Proof.
  unfold AMOUNT, Re.Opt.
  change (Re.rmatch (Re.Seq (Re.Alt ?m Re.Eps) ?n) s None whole_match)
    with (Re.orelse (Re.rmatch m s None (fun s1 cap1 => Re.rmatch n s1 cap1 whole_match))
            (Re.rmatch n s None whole_match)).
  unfold Re.orelse. by destruct (Re.rmatch CURRENCY_MARKER s None _).
Qed.

Lemma take_str_nonempty (n : nat) (s : string) :
  0 < n -> s <> EmptyString -> take_str n s <> EmptyString.
Proof. destruct n; [lia|]. by destruct s. Qed.

(** The leftmost match of the currency pattern captures the first number
    of the text and ends where that number ends, with or without a marker
    before it. *)
Lemma search_amount (s : string) :
  match Re.search AMOUNT s with
  | Some o =>
      Re.matched o <> EmptyString
      /\ exists number, Re.captured o = Some number
                        /\ first_number s = Some (number, Re.after o)
  | None => first_number s = None
  end.
Proof.
  assert (forall t cap, is_Some (whole_match t cap)) as Htotal by (by eexists).
  induction s as [|c r IH].
  - simpl. fold whole_match.
    destruct (Re.rmatch AMOUNT EmptyString None whole_match) as [[rest cap]|] eqn:Hm; [|done].
    apply rmatch_amount_some in Hm as (pre & s1 & Heq & _ & Hm).
    rewrite (rmatch_number whole_match s1 None Htotal) in Hm.
    destruct pre, s1; done.
  - cbn [Re.search]. fold whole_match.
    destruct (Re.rmatch AMOUNT (String c r) None whole_match) as [[rest cap]|] eqn:Hm.
    + apply rmatch_amount_some in Hm as (pre & s1 & Heq & Hpre & Hm).
      rewrite (rmatch_number whole_match s1 None Htotal) in Hm.
      destruct (read_digit_or_comma s1) as [s0|] eqn:Hread; [|done].
      pose proof (number_shorter s1 s0 Hread) as Hlt.
      cbn zeta in Hm. injection Hm as <- <-. cbn [Re.matched Re.captured Re.after].
      split.
      * apply take_str_nonempty; [|done]. rewrite Heq, length_append. lia.
      * eexists. split; [done|].
        by rewrite Heq, (first_number_skip pre s1 Hpre), first_number_unfold, Hread.
    + apply rmatch_amount_none in Hm.
      rewrite (rmatch_number whole_match _ None Htotal) in Hm.
      rewrite first_number_unfold.
      destruct (read_digit_or_comma (String c r)); [done|].
      destruct (Re.search AMOUNT r) as [o|]; [|done].
      cbn [Re.matched Re.captured Re.after]. done.
Qed.

(** [re.findall] with the currency pattern lists the numbers of the text. *)
Lemma findall_amount (s : string) : Re.findall AMOUNT s = numbers_of s.
Proof.
  unfold Re.findall, Re.finditer, numbers_of. generalize (String.length s).
  intros n. revert s. induction n as [|n IH]; intros s; [done|].
  cbn [Re.finditer_fuel numbers_from].
  pose proof (search_amount s) as Hs.
  destruct (Re.search AMOUNT s) as [o|].
  - destruct Hs as (Hne & number & Hcap & ->).
    destruct (Re.matched o) as [|c m] eqn:Hmatched; [done|].
    specialize (IH (Re.after o)).
    destruct (Re.finditer_fuel n AMOUNT (Re.after o)) as [os tl].
    cbn [fst map] in *. by rewrite Hcap, IH.
  - by rewrite Hs.
Qed.

End AmountSearch.

Section Values.

Lemma take_str_app (a b : string) : take_str (String.length a) (a +:+ b) = a.
Proof. induction a as [|c a IH]; [by destruct b | simpl; by rewrite IH]. Qed.

Lemma remove_char_app (x : ascii) (a b : string) :
  remove_char x (a +:+ b) = remove_char x a +:+ remove_char x b.
Proof.
  induction a as [|c a IH]; [done|]. rewrite append_cons. simpl.
  destruct (Ascii.eqb c x); [done|]. by rewrite append_cons, IH.
Qed.

Lemma is_mark_false (c : ascii) :
  is_mark c = false -> Ascii.eqb c ","%char = false /\ Ascii.eqb c "."%char = false.
Proof. unfold is_mark. by intros [? ?]%orb_false_iff. Qed.

Lemma remove_char_no_mark (s : string) :
  existsb_str is_mark s = false -> remove_char ","%char s = s.
Proof.
  induction s as [|c s IH]; [done|]. simpl. intros [Hc Hs]%orb_false_iff.
  apply is_mark_false in Hc as [-> _]. by rewrite IH.
Qed.

Lemma existsb_str_app (p : ascii -> bool) (a b : string) :
  existsb_str p (a +:+ b) = existsb_str p a || existsb_str p b.
Proof.
  induction a as [|c a IH]; [done|]. rewrite append_cons. simpl.
  by rewrite IH, orb_assoc.
Qed.

Lemma plain_no_mark (s : string) (ds : list nat) :
  plain_of s ds -> existsb_str is_mark s = false.
Proof.
  induction 1 as [|ch v s ds (_ & Hch & _) _ IH]; [done|].
  by rewrite existsb_str_app, Hch, IH.
Qed.

(** Taking the commas out of a stretch leaves the row of its digits. *)
Lemma run_plain (run : string) (ds : list nat) :
  run_of run ds -> plain_of (remove_char ","%char run) ds.
Proof.
  induction 1 as [|s ds _ IH|ch v s ds Hch _ IH]; [constructor|done|].
  rewrite remove_char_app, (remove_char_no_mark ch) by apply Hch. by constructor.
Qed.

Lemma cents_no_comma (cents : string) (f : option (nat * nat)) :
  cents_of cents f -> remove_char ","%char cents = cents.
Proof.
  intros [|c1 c2 d1 d2 (_ & H1 & _) (_ & H2 & _)]; [done|].
  cbn [remove_char]. change (Ascii.eqb "."%char ","%char) with false. cbn iota.
  by rewrite remove_char_app, !remove_char_no_mark.
Qed.

Lemma digits_of_plain (s : string) (ds : list nat) (n : nat) :
  plain_of s ds -> String.length s <= n -> digits_of n s = Some ds.
Proof.
  intros H. revert n. induction H as [|ch v s ds (Hne & _ & Hread) _ IH]; intros n Hn.
  - by destruct n.
  - rewrite length_append in Hn.
    destruct ch as [|c ch]; [done|]. simpl in Hn.
    destruct n as [|n]; [lia|]. rewrite append_cons.
    cbn [digits_of]. rewrite <- append_cons, Hread, IH by lia. done.
Qed.

Lemma split_on_plain (sep : ascii) (s : string) :
  existsb_str (fun c => Ascii.eqb c sep) s = false -> split_on sep s = [s].
Proof.
  induction s as [|c s IH]; [done|]. simpl. intros [-> Hs]%orb_false_iff.
  by rewrite IH.
Qed.

Lemma split_on_app (sep : ascii) (a b : string) :
  existsb_str (fun c => Ascii.eqb c sep) a = false ->
  split_on sep (a +:+ String sep b) = a :: split_on sep b.
Proof.
  induction a as [|c a IH]; simpl.
  - intros _. by rewrite Ascii.eqb_refl.
  - intros [-> Ha]%orb_false_iff. by rewrite IH.
Qed.

Lemma no_mark_no_point (s : string) :
  existsb_str is_mark s = false ->
  existsb_str (fun c => Ascii.eqb c "."%char) s = false.
Proof.
  induction s as [|c s IH]; [done|]. simpl. intros [Hc Hs]%orb_false_iff.
  apply is_mark_false in Hc as [_ ->]. by apply IH.
Qed.

(** The two ways of reading a row of digits in base ten agree. *)
Lemma digits_value_acc (ds : list nat) (acc : N) :
  fold_left (fun acc d => acc * 10 + N.of_nat d)%N ds acc
  = (acc * 10 ^ N.of_nat (length ds) + decimal ds)%N.
Proof.
  revert acc. induction ds as [|d ds IH]; intros acc; simpl.
  - lia.
  - rewrite IH. rewrite Nat2N.inj_succ, N.pow_succ_r'. lia.
Qed.

Lemma digits_value_decimal (ds : list nat) : digits_value ds = decimal ds.
Proof. unfold digits_value. rewrite digits_value_acc. lia. Qed.

(** The digits of a stretch, read by the scan of [number_value]. *)
Lemma run_digits_run (run : string) (ds : list nat) (tl : string) (n : nat) :
  run_of run ds ->
  read_digit_or_comma tl = None ->
  String.length run <= n ->
  run_digits n (run +:+ tl) = (ds, tl).
Proof.
  intros H Htl. revert n.
  induction H as [|s ds _ IH|ch v s ds (Hne & Hch & Hread) _ IH]; intros n Hn.
  - rewrite append_nil. destruct n as [|n]; [done|]. simpl.
    destruct tl as [|c r]; [done|]. unfold read_digit_or_comma, read_digit in Htl.
    destruct (Ascii.eqb c ","%char); [done|].
    by destruct (decimal_digit (String c r)) as [[d rest]|].
  - simpl in Hn. destruct n as [|n]; [lia|]. rewrite append_cons. simpl.
    apply IH. lia.
  - rewrite length_append in Hn. destruct ch as [|c ch]; [done|]. simpl in Hn, Hch.
    apply orb_false_iff in Hch as [Hc _]. apply is_mark_false in Hc as [Hc _].
    destruct n as [|n]; [lia|]. rewrite append_assoc, append_cons.
    cbn [run_digits]. rewrite Hc, <- append_cons, Hread, IH by lia. done.
Qed.

End Values.

Section Shape.

Lemma after_run_splits (n : nat) (s : string) :
  exists run ds, s = run +:+ after_run n s /\ run_of run ds.
Proof.
  revert s. induction n as [|n IH]; intros s.
  - exists EmptyString, []. split; [done | constructor].
  - cbn [after_run]. destruct (read_digit_or_comma s) as [s1|] eqn:Hread.
    + destruct (IH s1) as (run & ds & Hs1 & Hrun).
      destruct s as [|c r]; [done|]. unfold read_digit_or_comma in Hread.
      destruct (Ascii.eqb_spec c ","%char) as [->|_].
      * injection Hread as <-. exists (String ","%char run), ds.
        split; [by rewrite append_cons, <- Hs1 | by constructor].
      * unfold read_digit in Hread.
        destruct (decimal_digit (String c r)) as [[v tl]|] eqn:Hd; [|done].
        injection Hread as <-.
        apply decimal_digit_char in Hd as (ch & -> & Hch).
        exists (ch +:+ run), (v :: ds).
        split; [by rewrite append_assoc, <- Hs1 | by constructor].
    + exists EmptyString, []. split; [done | constructor].
Qed.

Lemma after_cents_splits (s : string) :
  exists cents f, s = cents +:+ after_cents s /\ cents_of cents f.
Proof.
  unfold after_cents. destruct s as [|c r].
  - exists EmptyString, None. split; [done | constructor].
  - destruct (Ascii.eqb_spec c "."%char) as [->|_].
    + destruct (decimal_digit r) as [[d1 r1]|] eqn:H1.
      * destruct (decimal_digit r1) as [[d2 r2]|] eqn:H2.
        -- apply decimal_digit_char in H1 as (c1 & -> & Hc1).
           apply decimal_digit_char in H2 as (c2 & -> & Hc2).
           exists (String "."%char (c1 +:+ c2)), (Some (d1, d2)).
           split; [by rewrite append_cons, append_assoc | by constructor].
        -- exists EmptyString, None. split; [done | constructor].
      * exists EmptyString, None. split; [done | constructor].
    + exists EmptyString, None. split; [done | constructor].
Qed.

Lemma number_at_shape (s : string) :
  number_shape
    (take_str (String.length s
               - String.length (after_cents (after_run (String.length s) s))) s).
Proof.
  destruct (after_run_splits (String.length s) s) as (run & ds & Hs & Hrun).
  destruct (after_cents_splits (after_run (String.length s) s))
    as (cents & f & Htl & Hcents).
  set (tl := after_run (String.length s) s) in *.
  set (final := after_cents tl) in *.
  exists run, ds, cents, f. split; [|done].
  assert (s = (run +:+ cents) +:+ final) as Heq
    by (by rewrite append_assoc, <- Htl).
  clearbody final tl. clear Hs Htl. subst s.
  rewrite length_append, Nat.add_sub. apply take_str_app.
Qed.

Lemma first_number_shape (s number rest : string) :
  first_number s = Some (number, rest) -> number_shape number.
Proof.
  induction s as [|c r IH]; rewrite first_number_unfold.
  - done.
  - destruct (read_digit_or_comma (String c r)); [|done].
    intros [= <- _]. exact (number_at_shape (String c r)).
Qed.

Lemma numbers_from_shape (n : nat) (s : string) :
  Forall number_shape (numbers_from n s).
Proof.
  revert s. induction n as [|n IH]; intros s; [constructor|].
  cbn [numbers_from]. destruct (first_number s) as [[number rest]|] eqn:H; [|constructor].
  constructor; [by eapply first_number_shape | apply IH].
Qed.

Lemma cents_no_number (cents : string) (f : option (nat * nat)) :
  cents_of cents f -> read_digit_or_comma cents = None.
Proof. by intros [|c1 c2 d1 d2 _ _]. Qed.

(** [float], applied to a number of the text without its commas, gives
    the value the number denotes, and raises when the number denotes
    none. *)
Lemma py_float_number (number : string) :
  number_shape number ->
  py_float (remove_char ","%char number)
  = match number_value number with
    | Some q => Returns q
    | None => Raises float_error
    end.
Proof.
  intros (run & ds & cents & f & -> & Hrun & Hcents).
  pose proof (run_plain run ds Hrun) as Hplain.
  pose proof (plain_no_mark _ _ Hplain) as Hclean.
  unfold number_value.
  rewrite (run_digits_run run ds cents _ Hrun (cents_no_number cents f Hcents))
    by (rewrite length_append; lia).
  rewrite remove_char_app, (cents_no_comma cents f Hcents).
  unfold py_float.
  destruct Hcents as [|c1 c2 d1 d2 Hc1 Hc2].
  - rewrite append_nil_r, (split_on_plain _ _ (no_mark_no_point _ Hclean)).
    rewrite (digits_of_plain _ ds _ Hplain) by done.
    destruct ds as [|d ds]; [done|]. by rewrite digits_value_decimal.
  - rewrite (split_on_app _ _ _ (no_mark_no_point _ Hclean)).
    assert (plain_of (c1 +:+ c2) [d1; d2]) as Hfrac.
    { constructor; [done|]. rewrite <- (append_nil_r c2).
      constructor; [done | constructor]. }
    rewrite (split_on_plain _ _ (no_mark_no_point _ (plain_no_mark _ _ Hfrac))).
    rewrite (digits_of_plain _ ds _ Hplain), (digits_of_plain _ _ _ Hfrac) by done.
    replace (length ds + length [d1; d2] =? 0) with false
      by (symmetry; apply Nat.eqb_neq; simpl; lia).
    change (String.eqb ?a ?b) with (String.eqb a b).
    change (Ascii.eqb "."%char "."%char) with true. cbn iota.
    destruct Hc1 as (_ & _ & Hr1). destruct Hc2 as (_ & _ & Hr2).
    rewrite Hr1. specialize (Hr2 EmptyString). rewrite append_nil_r in Hr2. rewrite Hr2.
    rewrite digits_value_decimal. do 2 f_equal.
    unfold digits_value. simpl. lia.
Qed.

(** What the inner loop of the amount extraction reads off a text: the
    values of its numbers. *)
Lemma findall_values (t : string) :
  flat_map (fun m => match py_float (remove_char ","%char m) with
                     | Returns a => [a]
                     | Raises _ => []
                     end)
           (Re.findall AMOUNT t)
  = omap number_value (numbers_of t).
Proof.
  rewrite findall_amount. unfold numbers_of.
  induction (numbers_from_shape (String.length t) t) as [|number l Hshape _ IH]; [done|].
  cbn [flat_map omap list_omap]. rewrite (py_float_number number Hshape), IH.
  by destruct (number_value number).
Qed.

End Shape.

Section NumbersOf.

Lemma first_number_shorter (s number rest : string) :
  first_number s = Some (number, rest) -> String.length rest < String.length s.
Proof.
  induction s as [|c r IH]; rewrite first_number_unfold.
  - done.
  - destruct (read_digit_or_comma (String c r)) as [s0|] eqn:Hread.
    + intros [= _ <-]. exact (number_shorter (String c r) s0 Hread).
    + intros H. apply IH in H. simpl. lia.
Qed.

Lemma numbers_from_fuels (n m : nat) (s : string) :
  String.length s <= n -> String.length s <= m -> numbers_from n s = numbers_from m s.
Proof.
  revert m s. induction n as [|n IH]; intros m s Hn Hm.
  - destruct s; [by destruct m | simpl in Hn; lia].
  - destruct m as [|m]; [destruct s; [done | simpl in Hm; lia]|].
    cbn [numbers_from]. destruct (first_number s) as [[number rest]|] eqn:H; [|done].
    apply first_number_shorter in H. f_equal. apply IH; lia.
Qed.

(** The scan runs to the end of the text: the numbers of a text are its
    first number and the numbers of the text after it. *)
Lemma numbers_of_unfold (s : string) :
  numbers_of s
  = match first_number s with
    | Some (number, rest) => number :: numbers_of rest
    | None => []
    end.
Proof.
  unfold numbers_of. destruct s as [|c r]; [done|].
  change (String.length (String c r)) with (S (String.length r)).
  cbn [numbers_from]. destruct (first_number (String c r)) as [[number rest]|] eqn:H; [|done].
  apply first_number_shorter in H. simpl in H. f_equal. apply numbers_from_fuels; lia.
Qed.

End NumbersOf.

(** ** The fallback strategy: amount *)

Section Amount.

Lemma in_range_iff (a : Q) :
  in_range a = true <-> (100 <= a /\ a <= 10000000)%Q.
Proof.
  unfold in_range. by rewrite andb_true_iff, !Qle_bool_iff.
Qed.

Lemma collect_amounts_spec (relevant_chunks : list hit) (a : Q) :
  In a (collect_amounts relevant_chunks) <->
  In a (currency_values relevant_chunks) /\ in_range a = true.
Proof.
  unfold collect_amounts, currency_values, chunk_amounts.
  rewrite !in_flat_map. split.
  - intros [[chunk score] [Hin Ha]]. apply in_flat_map in Ha as [m [Hm Ha]].
    destruct (py_float (remove_char "," m)) as [v|] eqn:Hv; [|done].
    destruct (in_range v) eqn:Hr; [|done].
    destruct Ha as [<-|[]]. split; [|done].
    exists (chunk, score). split; [done|]. rewrite <- findall_values.
    apply in_flat_map. exists m. split; [done|]. rewrite Hv. by left.
  - intros [[[chunk score] [Hin Ha]] Hr]. rewrite <- findall_values in Ha.
    apply in_flat_map in Ha as [m [Hm Ha]].
    exists (chunk, score). split; [done|]. apply in_flat_map.
    exists m. split; [done|].
    destruct (py_float (remove_char "," m)) as [v|]; [|done].
    destruct Ha as [<-|[]]. rewrite Hr. by left.
Qed.

(** The running maximum of [max] dominates its start value and every
    element seen, and is one of them. *)
Lemma running_max_spec (rest : list Q) (x : Q) :
  let m := fold_left (fun m y => if Qle_bool y m then m else y) rest x in
  (m = x \/ In m rest) /\ (x <= m)%Q /\ (forall y, In y rest -> (y <= m)%Q).
Proof.
  revert x. induction rest as [|y rest IH]; intros x; simpl.
  - split; [by left|]. split; [apply Qle_refl | intros ? []].
  - destruct (Qle_bool y x) eqn:Hle.
    + apply Qle_bool_iff in Hle.
      destruct (IH x) as [Hmem [Hx Hall]]. split; [|split].
      * destruct Hmem; [by left | right; by right].
      * done.
      * intros z [<-|Hz]; [by eapply Qle_trans | by apply Hall].
    + assert (x <= y)%Q as Hxy.
      { apply Qlt_le_weak, Qnot_le_lt. intros H.
        apply Qle_bool_iff in H. congruence. }
      destruct (IH y) as [Hmem [Hy Hall]]. split; [|split].
      * right. destruct Hmem as [->|]; [by left | by right].
      * by eapply Qle_trans.
      * intros z [<-|Hz]; [done | by apply Hall].
Qed.

Lemma py_max_spec (l : list Q) :
  match py_max l with
  | None => l = []
  | Some m => In m l /\ forall y, In y l -> (y <= m)%Q
  end.
Proof.
  destruct l as [|x rest]; [done|]. unfold py_max.
  destruct (running_max_spec rest x) as [Hmem [Hx Hall]]. split.
  - destruct Hmem as [->|]; [by left | by right].
  - intros y [<-|Hy]; [done | by apply Hall].
Qed.

End Amount.

(** C3.  The amount reported by the fallback strategy is the largest
    currency value found in the texts of the ranked chunks that lies in
    [100, 10,000,000], and it is null exactly when no found value lies in
    that range.  The values found are the values of all the numbers written
    in all the texts: every stretch of digits and commas, with the two
    digits after a decimal point, behind a currency marker or without one.
    For the two chunks "claim amount is Rs. 15,000" and "penalty is Rs. 500"
    the amount is 15000.0.  A clause that names 2,500.50, 7500, 1,20,000.75
    and 12 gives these four values and the amount 120000.75; a value in
    Devanagari digits is read as well; and a clause whose values are 99.99,
    2 and 25,000,000 gives no amount. *)
Theorem fallback_amount_is_largest_in_range
        (env : Env) (query : string) (relevant_chunks : list hit) :
  let r := _fallback_reasoning env query relevant_chunks in
  ((exists a, amount r = PNum a /\
              In a (currency_values relevant_chunks) /\
              (100 <= a /\ a <= 10000000)%Q /\
              forall v, In v (currency_values relevant_chunks) ->
                        (100 <= v /\ v <= 10000000)%Q -> (v <= a)%Q)
   \/ (amount r = PNone /\
       forall v, In v (currency_values relevant_chunks) ->
                 ~ (100 <= v /\ v <= 10000000)%Q))
  /\ (forall p1 s1 f1 i1 e1 score1 p2 s2 f2 i2 e2 score2,
        amount (_fallback_reasoning env query
                  [(mkChunk "claim amount is Rs. 15,000" p1 s1 f1 i1 e1, score1);
                   (mkChunk "penalty is Rs. 500" p2 s2 f2 i2 e2, score2)])
        = PNum 15000%Q)
  /\ (forall p s f i e score,
        currency_values [(mkChunk rates_clause p s f i e, score)]
        = [(250050 # 100)%Q; 7500%Q; (12000075 # 100)%Q; 12%Q]
        /\ amount (_fallback_reasoning env query [(mkChunk rates_clause p s f i e, score)])
           = PNum (12000075 # 100)%Q
        /\ currency_values [(mkChunk premium_clause p s f i e, score)] = [15000%Q]
        /\ amount (_fallback_reasoning env query [(mkChunk premium_clause p s f i e, score)])
           = PNum 15000%Q
        /\ currency_values [(mkChunk copay_clause p s f i e, score)]
           = [(9999 # 100)%Q; 2%Q; 25000000%Q]
        /\ amount (_fallback_reasoning env query [(mkChunk copay_clause p s f i e, score)])
           = PNone
        /\ amount (_fallback_reasoning env query
                     [(mkChunk copay_clause p s f i e, score);
                      (mkChunk rates_clause p s f i e, score);
                      (mkChunk premium_clause p s f i e, score)])
           = PNum (12000075 # 100)%Q).
Proof.
  split; [|split; [reflexivity | by intros; vm_compute]].
  unfold _fallback_reasoning. cbn [amount].
  pose proof (py_max_spec (collect_amounts relevant_chunks)) as Hmax.
  destruct (py_max (collect_amounts relevant_chunks)) as [m|].
  - left. exists m. destruct Hmax as [Hin Hall].
    apply collect_amounts_spec in Hin as [Hin Hr]. split; [done|].
    split; [done|]. split; [by apply in_range_iff|].
    intros v Hv Hvr. apply Hall, collect_amounts_spec.
    split; [done | by apply in_range_iff].
  - right. split; [done|]. intros v Hv Hvr.
    assert (In v (collect_amounts relevant_chunks)) as Hin.
    { apply collect_amounts_spec. split; [done | by apply in_range_iff]. }
    rewrite Hmax in Hin. destruct Hin.
Qed.

(** ** The fallback strategy: decision *)

Section Decision.

Lemma lower_app (s t : string) : lower (s +:+ t) = lower s +:+ lower t.
Proof.
  induction s as [|c s IH]; [done|]. simpl. rewrite !append_cons. simpl. by rewrite IH.
Qed.

(** [lower] keeps the length, so a cut of the lowered text is a cut of the
    text. *)
Lemma lower_split (t x y : string) :
  lower t = x +:+ y -> exists t1 t2, t = t1 +:+ t2 /\ lower t1 = x /\ lower t2 = y.
Proof.
  revert t. induction x as [|a x IH]; intros t H.
  - by exists EmptyString, t.
  - destruct t as [|c t]; [done|]. rewrite append_cons in H. simpl in H.
    injection H as Ha Ht. destruct (IH t Ht) as (t1 & t2 & -> & H1 & H2).
    exists (String c t1), t2. simpl. by rewrite Ha, H1.
Qed.

Lemma is_upper_char_iff (c : ascii) :
  is_upper_char c = true <-> 65 <= code c <= 90.
Proof.
  unfold is_upper_char. rewrite andb_true_iff, !Nat.leb_le. done.
Qed.

(** What [lower] does to one character, for a result that is no capital. *)
Lemma lower_char_same_letter (a b : ascii) :
  is_upper_char a = false -> (lower_char b = a <-> same_letter a b).
Proof.
  intros Ha. unfold lower_char, same_letter.
  destruct (is_upper_char b) eqn:Hb.
  - apply is_upper_char_iff in Hb. split.
    + intros <-. right. exists (code b). split; [done|]. right. split; [|done].
      unfold code. apply nat_ascii_embedding. unfold code in Hb. lia.
    + intros [<- | (n & Hn & [[Hna Hnb] | [Hna Hnb]])].
      * apply is_upper_char_iff in Hb. congruence.
      * lia.
      * rewrite Hnb, <- Hna. unfold code. apply ascii_nat_embedding.
  - split; [intros ->; by left|].
    intros [-> | (n & Hn & [[Hna Hnb] | [Hna Hnb]])]; [done|..].
    + assert (is_upper_char a = true) by (apply is_upper_char_iff; lia). congruence.
    + assert (is_upper_char b = true) by (apply is_upper_char_iff; lia). congruence.
Qed.

Lemma lower_same_text (k mid : string) :
  existsb_str is_upper_char k = false -> (lower mid = k <-> same_text k mid).
Proof.
  revert mid. induction k as [|a k IH]; intros mid Hk.
  - by destruct mid.
  - destruct mid as [|b mid]; [done|]. simpl in Hk.
    apply orb_false_iff in Hk as [Ha Hk]. simpl.
    rewrite <- (IH mid Hk), <- (lower_char_same_letter a b Ha). split.
    + by intros [= -> ->].
    + by intros [-> ->].
Qed.

(** The test of the code, a search in the lowered text, finds the keywords
    in whatever case the text has them. *)
Lemma contains_lower_iff (keyword t : string) :
  existsb_str is_upper_char keyword = false ->
  contains keyword (lower t) = true <-> occurs_ignoring_case keyword t.
Proof.
  intros Hk. rewrite contains_iff. unfold substring, occurs_ignoring_case. split.
  - intros (pre & post & H).
    apply lower_split in H as (t1 & t' & -> & H1 & H).
    apply lower_split in H as (mid & t2 & -> & Hmid & H2).
    exists t1, mid, t2. split; [done|]. by apply lower_same_text.
  - intros (pre & mid & post & -> & Hmid).
    exists (lower pre), (lower post). rewrite !lower_app.
    by rewrite (proj2 (lower_same_text keyword mid Hk) Hmid).
Qed.

Lemma mentions_rejection_iff (chunk : DocumentChunk) :
  mentions_rejection chunk = true <-> has_rejection_keyword chunk.
Proof.
  assert (forall k, In k rejection_keywords -> existsb_str is_upper_char k = false)
    as Hsmall.
  { intros k Hk. simpl in Hk. by repeat destruct Hk as [<-|Hk]. }
  unfold mentions_rejection, has_rejection_keyword.
  rewrite existsb_exists. split; intros [k [Hk Hc]]; exists k;
    (split; [done | by apply (contains_lower_iff k (text chunk) (Hsmall k Hk))]).
Qed.

Lemma rejection_loop_cases (relevant_chunks : list hit) :
  (rejection_loop "approved" relevant_chunks = "rejected" /\
   exists chunk score, In (chunk, score) relevant_chunks /\ has_rejection_keyword chunk)
  \/ (rejection_loop "approved" relevant_chunks = "approved" /\
      forall chunk score, In (chunk, score) relevant_chunks -> ~ has_rejection_keyword chunk).
Proof.
  induction relevant_chunks as [|[chunk score] rest IH]; simpl.
  - right. split; [done | intros ? ? []].
  - destruct (mentions_rejection chunk) eqn:Hm.
    + left. split; [done|]. exists chunk, score.
      split; [by left | by apply mentions_rejection_iff].
    + destruct IH as [[-> [c [s [Hin Hk]]]] | [-> Hnone]].
      * left. split; [done|]. exists c, s. split; [by right | done].
      * right. split; [done|]. intros c s [[= <- <-]|Hin].
        -- rewrite <- mentions_rejection_iff. congruence.
        -- by eapply Hnone.
Qed.

(** The [break]: once a chunk matches, what follows it plays no part. *)
Lemma rejection_loop_break (pre post : list hit) (chunk : DocumentChunk) (score : Q) :
  mentions_rejection chunk = true ->
  rejection_loop "approved" (pre ++ (chunk, score) :: post) = "rejected".
Proof.
  intros Hm. induction pre as [|[c s] pre IH]; simpl.
  - by rewrite Hm.
  - by destruct (mentions_rejection c).
Qed.

End Decision.

(** C4.  The fallback decision is "rejected" exactly when some ranked chunk
    contains, case-insensitively, one of the five rejection keywords, and
    "approved" otherwise; the scan stops at the first such chunk, so the
    chunks ranked after it play no part; and the decision depends on the
    keywords alone, not on the amounts in the texts.  A keyword counts in
    capitals, in small letters and in mixed case: a chunk that says "NOT
    COVERED" or "Denied" is rejected, whatever amount it names, and one
    that says "covered" alone is approved. *)
Theorem fallback_decision_rejected_iff_keyword
        (env : Env) (query : string) (relevant_chunks : list hit) :
  let r := _fallback_reasoning env query relevant_chunks in
  rejection_keywords = ["excluded"; "not covered"; "rejected"; "denied"; "invalid"]
  /\ (decision r = PStr "rejected" <->
      exists chunk score, In (chunk, score) relevant_chunks /\ has_rejection_keyword chunk)
  /\ (decision r = PStr "approved" <->
      ~ exists chunk score, In (chunk, score) relevant_chunks /\ has_rejection_keyword chunk)
  /\ (forall pre chunk score post,
        relevant_chunks = pre ++ (chunk, score) :: post ->
        has_rejection_keyword chunk ->
        forall post',
          decision (_fallback_reasoning env query (pre ++ (chunk, score) :: post'))
          = PStr "rejected")
  /\ (forall other : list hit,
        Forall2 (fun h h' => has_rejection_keyword h.1 <-> has_rejection_keyword h'.1)
                relevant_chunks other ->
        decision (_fallback_reasoning env query other) = decision r)
  /\ (forall p s f i e score,
        decision (_fallback_reasoning env query
                    [(mkChunk "Dental implants are NOT COVERED by this plan; limit Rs. 20,000."
                              p s f i e, score)])
        = PStr "rejected"
        /\ decision (_fallback_reasoning env query
                       [(mkChunk "Claim Denied: the policy had lapsed." p s f i e, score)])
           = PStr "rejected"
        /\ decision (_fallback_reasoning env query
                       [(mkChunk "Knee surgery is covered up to Rs. 150,000." p s f i e, score)])
           = PStr "approved").
Proof.
  assert (Hdec : forall hits, decision (_fallback_reasoning env query hits)
                              = PStr (rejection_loop "approved" hits)) by done.
  cbn zeta. split; [done|]. rewrite !Hdec.
  split; [|split; [|split; [|split; [|by intros; rewrite !Hdec]]]].
  - destruct (rejection_loop_cases relevant_chunks) as [[-> Hex] | [-> Hnone]].
    + done.
    + split; [done|]. intros [c [s [Hin Hk]]]. by destruct (Hnone c s).
  - destruct (rejection_loop_cases relevant_chunks) as [[-> Hex] | [-> Hnone]].
    + split; [done|]. intros H. by destruct H.
    + split; [|done]. intros _ [c [s [Hin Hk]]]. by destruct (Hnone c s).
  - intros pre chunk score post _ Hk post'. rewrite Hdec.
    f_equal. by apply rejection_loop_break, mentions_rejection_iff.
  - intros other Hall. rewrite Hdec. f_equal.
    induction Hall as [|[c s] [c' s'] l l' Hiff Hall IH]; [done|]. simpl in *.
    destruct (mentions_rejection c) eqn:Hc, (mentions_rejection c') eqn:Hc'; try done.
    + apply mentions_rejection_iff, Hiff, mentions_rejection_iff in Hc. congruence.
    + apply mentions_rejection_iff, Hiff, mentions_rejection_iff in Hc'. congruence.
Qed.

(** ** generate_response *)

Section Generate.

Context (env : Env).

Lemma kwargs_accepted (d : list (string * pyval)) (dec amt jus cm : pyval) :
  (forall k v, In (k, v) d -> In k field_names) ->
  dict_get d "decision" = Some dec ->
  dict_get d "amount" = Some amt ->
  dict_get d "justification" = Some jus ->
  dict_get d "clause_mapping" = Some cm ->
  QueryResult_of_kwargs (PDict d) = Returns (mkResult dec amt jus cm).
Proof.
  intros Hkeys H1 H2 H3 H4. unfold QueryResult_of_kwargs.
  rewrite H1, H2, H3, H4.
  replace (forallb _ d) with true; [done|].
  symmetry. apply forallb_forall. intros [k v] Hin. apply existsb_exists.
  exists k. split; [by eapply Hkeys | by apply String.eqb_refl].
Qed.

Lemma kwargs_missing_field (d : list (string * pyval)) (f : string) :
  In f field_names -> dict_get d f = None ->
  raised (QueryResult_of_kwargs (PDict d)).
Proof.
  intros Hf Hnone. unfold QueryResult_of_kwargs, raised.
  destruct (forallb _ d); [|by eexists].
  simpl in Hf. destruct Hf as [<-|[<-|[<-|[<-|[]]]]]; rewrite Hnone;
    repeat match goal with
           | |- context [match dict_get d ?k with _ => _ end] =>
               destruct (dict_get d k)
           end; by eexists.
Qed.

Lemma kwargs_unexpected_key (d : list (string * pyval)) (k : string) (v : pyval) :
  In (k, v) d -> ~ In k field_names ->
  raised (QueryResult_of_kwargs (PDict d)).
Proof.
  intros Hin Hk. unfold QueryResult_of_kwargs, raised.
  destruct (forallb _ d) eqn:Hall; [|by eexists].
  exfalso. apply Hk.
  pose proof (proj1 (forallb_forall _ _) Hall (k, v) Hin) as Hex.
  apply existsb_exists in Hex as [f [Hf Heq]].
  apply String.eqb_eq in Heq. simpl in Heq. by subst.
Qed.

Lemma kwargs_not_a_mapping (v : pyval) :
  (forall d, v <> PDict d) -> raised (QueryResult_of_kwargs v).
Proof.
  intros Hv. unfold raised. destruct v; try by eexists. by destruct (Hv d).
Qed.

(** Whatever is raised after the provider replied ends in the fallback. *)
Lemma failover_after_reply (self : LLMReasoningEngine) (query : string)
      (relevant_chunks : list hit) (t : string) :
  chat_completion env query relevant_chunks = Returns t ->
  raised (result_dict ← json_loads env t; QueryResult_of_kwargs result_dict) ->
  generate_response env self query relevant_chunks
  = Returns (_fallback_reasoning env query relevant_chunks).
Proof.
  intros Hchat [e He]. unfold generate_response.
  destruct (has_key self); [|done]. simpl.
  rewrite Hchat. simpl. unfold mbind in He |- *. rewrite He.
  by destruct e.
Qed.

End Generate.

(** C2, as the code has it.  [generate_response] never raises and always
    returns a result.  It falls back when no key is configured, when the
    provider call raises, when the reply does not parse, and when the parsed
    value is not an object with exactly the four field names.  An object
    that has the four field names is accepted with its values as they are,
    of whatever type. *)
Theorem generate_response_never_raises
        (env : Env) (self : LLMReasoningEngine) (query : string)
        (relevant_chunks : list hit) :
  let fallback := Returns (_fallback_reasoning env query relevant_chunks) in
  let answer := generate_response env self query relevant_chunks in
  (exists r, answer = Returns r)
  /\ (has_key self = false -> answer = fallback)
  /\ (forall e, chat_completion env query relevant_chunks = Raises e -> answer = fallback)
  /\ (forall t e, chat_completion env query relevant_chunks = Returns t ->
                  json_loads env t = Raises e -> answer = fallback)
  /\ (forall t v, chat_completion env query relevant_chunks = Returns t ->
                  json_loads env t = Returns v ->
                  (forall d, v <> PDict d) -> answer = fallback)
  /\ (forall t d f, chat_completion env query relevant_chunks = Returns t ->
                    json_loads env t = Returns (PDict d) ->
                    In f field_names -> dict_get d f = None -> answer = fallback)
  /\ (forall t d k v, chat_completion env query relevant_chunks = Returns t ->
                      json_loads env t = Returns (PDict d) ->
                      In (k, v) d -> ~ In k field_names -> answer = fallback)
  /\ (forall t d dec amt jus cm,
        has_key self = true ->
        chat_completion env query relevant_chunks = Returns t ->
        json_loads env t = Returns (PDict d) ->
        (forall k v, In (k, v) d -> In k field_names) ->
        dict_get d "decision" = Some dec ->
        dict_get d "amount" = Some amt ->
        dict_get d "justification" = Some jus ->
        dict_get d "clause_mapping" = Some cm ->
        answer = Returns (mkResult dec amt jus cm)).
Proof.
  cbn zeta. repeat split.
  - unfold generate_response. destruct (has_key self); [|by eexists]. simpl.
    destruct (chat_completion env query relevant_chunks) as [t|e]; [|by eexists].
    simpl. destruct (json_loads env t) as [v|e]; simpl.
    + destruct (QueryResult_of_kwargs v) as [r|e]; [by eexists|].
      destruct e; by eexists.
    + destruct e; by eexists.
  - intros Hkey. unfold generate_response. by rewrite Hkey.
  - intros e Hchat. unfold generate_response.
    destruct (has_key self); [|done]. simpl. by rewrite Hchat.
  - intros t e Hchat Hjson. eapply failover_after_reply; [done|].
    exists e. by rewrite Hjson.
  - intros t v Hchat Hjson Hv. eapply failover_after_reply; [done|].
    rewrite Hjson. by apply kwargs_not_a_mapping.
  - intros t d f Hchat Hjson Hf Hnone. eapply failover_after_reply; [done|].
    rewrite Hjson. by eapply kwargs_missing_field.
  - intros t d k v Hchat Hjson Hin Hk. eapply failover_after_reply; [done|].
    rewrite Hjson. by eapply kwargs_unexpected_key.
  - intros t d dec amt jus cm Hkey Hchat Hjson Hkeys H1 H2 H3 H4.
    unfold generate_response. rewrite Hkey. cbn [negb].
    unfold mbind, outcome_bind. rewrite Hchat, Hjson.
    by erewrite kwargs_accepted.
Qed.

(** C2 as stated fails: a reply with the four field names and values of the
    wrong types causes no failover; the ill-typed object is returned. *)
Lemma mistyped_reply_is_returned :
  generate_response (env_with_reply mistyped_reply) keyed "knee surgery" [exclusion_hit]
  = Returns {| decision := PNum 5%Q; amount := PStr "plenty";
               justification := PNone; clause_mapping := PNum 7%Q |}
  /\ generate_response (env_with_reply mistyped_reply) keyed "knee surgery" [exclusion_hit]
     <> Returns (_fallback_reasoning (env_with_reply mistyped_reply) "knee surgery"
                   [exclusion_hit]).
Proof. split; [reflexivity | discriminate]. Qed.

(** ** Citations *)



(** ** Empty retrieval *)

(** C5, as the code has it.  The empty ranked-hit list is handled by
    [query], before [generate_response] is called: when the search returns
    no hit, [query] returns the fixed rejection with a null amount and no
    citation.  [generate_response] itself has no such case: on an empty list
    and without a key it runs the fallback, which approves. *)
Theorem empty_hits_handled_by_query
        (env : Env) (st : Heap * RAGPolicyQA) (user_query : string) (top_k : Z) :
  is_initialized st.2 = true ->
  semantic_search env st.1 (embedding_engine st.2) user_query top_k = Returns [] ->
  query env st user_query top_k
  = Returns {| decision := PStr "rejected";
               amount := PNone;
               justification := PStr "No relevant policy clauses found for the query.";
               clause_mapping := PList [] |}
  /\ exists r, generate_response env {| api_key := None |} user_query [] = Returns r
               /\ decision r = PStr "approved"
               /\ amount r = PNone
               /\ clause_mapping r = PList [].
Proof.
  destruct st as [h self]. simpl. intros Hinit Hsearch. split.
  - unfold query. rewrite Hinit. cbn [negb]. by rewrite Hsearch.
  - by eexists.
Qed.

Lemma empty_hits_handled_by_query_witness :
  query demo_env (loaded "policy.pdf") "knee surgery" 0
  = Returns {| decision := PStr "rejected";
               amount := PNone;
               justification := PStr "No relevant policy clauses found for the query.";
               clause_mapping := PList [] |}.
Proof.
  refine (proj1 (empty_hits_handled_by_query demo_env (loaded "policy.pdf")
                   "knee surgery" 0 _ _)); vm_compute; reflexivity.
Defined.

(** C5 as stated fails: [generate_response] called with no hit does not
    reject; without a key it returns the fallback result, "approved". *)
Lemma generate_response_on_no_hit_approves :
  generate_response demo_env keyless "knee surgery" []
  = Returns {| decision := PStr "approved";
               amount := PNone;
               justification :=
                 PStr "Decision based on analysis of 0 relevant clauses from the policy document. Policy terms analyzed but no specific amount determined.";
               clause_mapping := PList [] |}
  /\ generate_response demo_env keyless "knee surgery" [] <> Returns no_clauses_result.
Proof. split; [reflexivity | discriminate]. Qed.

(** ** semantic_search *)

Section Search.

Context (env : Env).
Hypothesis argsort_ok : argsort_spec (np_argsort env).

Lemma argsort_elem (sims : list Q) (i : nat) :
  i ∈ np_argsort env sims <-> i < length sims.
Proof.
  destruct (argsort_ok sims) as [Hperm _]. rewrite Hperm, elem_of_seq. lia.
Qed.

Lemma argsort_length (sims : list Q) :
  length (np_argsort env sims) = length sims.
Proof.
  destruct (argsort_ok sims) as [Hperm _].
  by rewrite (Permutation_length Hperm), length_seq.
Qed.

Lemma argsort_NoDup (sims : list Q) : NoDup (np_argsort env sims).
Proof.
  destruct (argsort_ok sims) as [Hperm _]. rewrite Hperm. apply NoDup_seq.
Qed.

(** The ranking [np.argsort(similarities)[::-1]]: best score first. *)
Lemma ranking_descending (sims : list Q) :
  StronglySorted (flip (ascending sims)) (reverse (np_argsort env sims)).
Proof.
  destruct (argsort_ok sims) as [_ Hsorted].
  induction Hsorted as [|i l Hl IH Hall]; [constructor|].
  rewrite reverse_cons. apply StronglySorted_app_2; [|done|repeat constructor].
  intros x1 x2 Hx1 Hx2. apply list_elem_of_singleton in Hx2 as ->.
  rewrite Forall_forall in Hall. unfold flip.
  apply Hall. by apply elem_of_reverse.
Qed.

Lemma ranking_elem (sims : list Q) (i : nat) :
  i ∈ reverse (np_argsort env sims) <-> i < length sims.
Proof. by rewrite elem_of_reverse, argsort_elem. Qed.

Lemma ranking_NoDup (sims : list Q) : NoDup (reverse (np_argsort env sims)).
Proof. rewrite reverse_Permutation. apply argsort_NoDup. Qed.

(** Every prefix of the ranking is duplicate-free, descending, and
    dominates what it leaves out. *)
Lemma ranking_prefix (sims : list Q) (n : nat) :
  let idxs := take n (reverse (np_argsort env sims)) in
  length idxs = Nat.min n (length sims)
  /\ NoDup idxs
  /\ Forall (fun i => i < length sims) idxs
  /\ StronglySorted (flip (ascending sims)) idxs
  /\ (forall i j, i ∈ idxs -> j < length sims -> j ∉ idxs -> ascending sims j i).
Proof.
  intros idxs. subst idxs. set (d := reverse (np_argsort env sims)).
  pose proof (ranking_descending sims) as Hsorted. fold d in Hsorted.
  rewrite <- (take_drop n d) in Hsorted.
  apply StronglySorted_app in Hsorted as [Hcross [Htake _]].
  split; [|split; [|split; [|split]]].
  - rewrite length_take. unfold d. by rewrite length_reverse, argsort_length.
  - eapply sublist_NoDup; [apply ranking_NoDup | apply sublist_take].
  - apply Forall_forall. intros i Hi. apply ranking_elem.
    by eapply elem_of_sublist, sublist_take.
  - done.
  - intros i j Hi Hj Hnot. apply (Hcross i j Hi).
    apply ranking_elem in Hj. fold d in Hj.
    rewrite <- (take_drop n d) in Hj. apply elem_of_app in Hj as [|]; done.
Qed.

Lemma collect_results_in_range (cs : list loc) (sims : list Q) (idxs : list nat) :
  Forall (fun i => i < length cs /\ i < length sims) idxs ->
  exists hits, collect_results cs sims idxs = Returns hits /\ hits_at cs sims idxs hits.
Proof.
  induction 1 as [|idx idxs [Hcs Hsims] _ [hits [IH Hat]]]; simpl.
  - exists []. split; [done | constructor].
  - apply lookup_lt_is_Some_2 in Hcs as [chunk Hchunk].
    apply lookup_lt_is_Some_2 in Hsims as [score Hscore].
    rewrite Hchunk, Hscore, IH. exists ((chunk, score) :: hits).
    split; [done|]. by constructor.
Qed.

(** On a built index, with the query embedded, the search is the
    collection of the sliced ranking. *)
Lemma semantic_search_built (h : Heap) (self : EmbeddingEngine)
      (refs : list loc) (stored : list vector)
      (query : string) (qv : vector) (more : list vector) (top_k : Z) :
  index_built h self refs stored ->
  model_encode env [query] = Returns (qv :: more) ->
  let sims := map (cosine env qv) stored in
  semantic_search env h self query top_k
  = collect_results refs sims (slice_to top_k (reverse (np_argsort env sims))).
Proof.
  intros (Hlist & Hemb & Hne & Hlen) Henc. unfold semantic_search, deref_list.
  rewrite Hemb, Hlist. simpl. destruct refs as [|r refs]; [done|]. simpl.
  by rewrite Henc.
Qed.

End Search.

(** C1, as the code has it.  On a built index and for [k > 0], the search
    returns the chunks at [min k n] distinct positions of the corpus, each
    with its own score, in descending order of score, and no chunk left out
    scores higher than a chunk returned.  The positions are the first [k]
    of the reversed [np.argsort] result, so equal scores come in the reverse
    of the order [np.argsort] lists them in, not in insertion order. *)
Theorem semantic_search_returns_top_k
        (env : Env) (h : Heap) (self : EmbeddingEngine)
        (refs : list loc) (stored : list vector)
        (query : string) (qv : vector) (more : list vector) (top_k : Z) :
  argsort_spec (np_argsort env) ->
  index_built h self refs stored ->
  model_encode env [query] = Returns (qv :: more) ->
  (0 < top_k)%Z ->
  let sims := map (cosine env qv) stored in
  exists idxs hits,
    semantic_search env h self query top_k = Returns hits
    /\ idxs = take (Z.to_nat top_k) (reverse (np_argsort env sims))
    /\ hits_at refs sims idxs hits
    /\ length hits = Nat.min (Z.to_nat top_k) (length refs)
    /\ NoDup idxs
    /\ StronglySorted (fun a b => (b.2 <= a.2)%Q) hits
    /\ (forall j r s hit, refs !! j = Some r -> sims !! j = Some s -> j ∉ idxs ->
                          hit ∈ hits -> (s <= hit.2)%Q).
Proof.
  intros Hspec Hbuilt Henc Hk sims.
  pose proof Hbuilt as (_ & _ & _ & Hlen).
  assert (length sims = length refs) as Hsims by (unfold sims; by rewrite length_map).
  rewrite (semantic_search_built env h self refs stored query qv more top_k Hbuilt Henc).
  fold sims. unfold slice_to. replace (0 <=? top_k)%Z with true by lia.
  set (idxs := take (Z.to_nat top_k) (reverse (np_argsort env sims))).
  destruct (ranking_prefix env Hspec sims (Z.to_nat top_k))
    as (Hlenidx & Hnodup & Hrange & Hsorted & Hdom). fold idxs in Hlenidx, Hnodup, Hrange, Hsorted, Hdom.
  destruct (collect_results_in_range refs sims idxs) as [hits [Hres Hat]].
  { eapply Forall_impl; [exact Hrange|]. simpl. intros i Hi. lia. }
  exists idxs, hits. split; [done|]. split; [done|]. split; [done|].
  split; [by rewrite <- (Forall2_length _ _ _ Hat), Hlenidx, Hsims|].
  split; [done|]. split.
  - clear Hres Hlenidx Hnodup Hrange Hdom. clearbody idxs. revert Hsorted.
    induction Hat as [|idx hit idxs' hits' [Hr Hs] Hat IH]; intros Hsorted;
      [constructor|].
    apply StronglySorted_inv in Hsorted as [Hsorted Hall].
    constructor; [by apply IH|].
    apply Forall_forall. intros hit' Hhit'.
    pose proof (proj1 (Forall_forall _ _) Hall) as Hall'.
    apply list_elem_of_lookup in Hhit' as [n Hn].
    destruct (Forall2_lookup_r _ _ _ _ _ Hat Hn) as (idx' & Hidx' & _ & Hs').
    apply (Hall' idx'); [by eapply list_elem_of_lookup_2 | done..].
  - intros j r s hit Hj Hs Hnot Hhit.
    apply list_elem_of_lookup in Hhit as [n Hn].
    destruct (Forall2_lookup_r _ _ _ _ _ Hat Hn) as (idx & Hidx & _ & Hs').
    apply (Hdom idx j); [by eapply list_elem_of_lookup_2 | | done..].
    by eapply lookup_lt_Some.
Qed.

(** ** The insertion argsort of the examples meets [argsort_spec] *)

Section InsertionArgsort.

Context (sims : list Q).

Lemma insert_index_perm (i : nat) (sorted : list nat) :
  insert_index sims i sorted ≡ₚ i :: sorted.
Proof.
  induction sorted as [|j rest IH]; simpl; [done|].
  destruct (Qle_bool _ _); [|done]. rewrite IH. apply Permutation_swap.
Qed.

Lemma insert_index_sorted (i : nat) (sorted : list nat) :
  StronglySorted (score_le sims) sorted ->
  StronglySorted (score_le sims) (insert_index sims i sorted).
Proof.
  induction 1 as [|j rest Hrest IH Hall]; simpl; [repeat constructor|].
  destruct (Qle_bool (score_at sims j) (score_at sims i)) eqn:Hle.
  - apply Qle_bool_iff in Hle. constructor; [done|].
    rewrite insert_index_perm. by constructor.
  - assert (score_le sims i j) as Hij.
    { apply Qlt_le_weak, Qnot_le_lt. intros H.
      apply Qle_bool_iff in H. congruence. }
    constructor; [by constructor|]. constructor; [done|].
    eapply Forall_impl; [exact Hall|]. intros x Hx. by eapply Qle_trans.
Qed.

Lemma insertion_fold (todo acc : list nat) :
  StronglySorted (score_le sims) acc ->
  let out := fold_left (fun sorted i => insert_index sims i sorted) todo acc in
  out ≡ₚ todo ++ acc /\ StronglySorted (score_le sims) out.
Proof.
  revert acc. induction todo as [|i todo IH]; intros acc Hacc; simpl; [done|].
  destruct (IH (insert_index sims i acc)) as [Hperm Hsorted].
  { by apply insert_index_sorted. }
  split; [|done]. rewrite Hperm, insert_index_perm.
  by rewrite Permutation_middle.
Qed.

Lemma score_le_ascending (i j : nat) : score_le sims i j -> ascending sims i j.
Proof.
  unfold score_le, score_at, ascending. intros H a b Ha Hb.
  by rewrite Ha, Hb in H.
Qed.

End InsertionArgsort.

Lemma insertion_argsort_spec : argsort_spec insertion_argsort.
Proof.
  intros sims. unfold insertion_argsort.
  destruct (insertion_fold sims (seq 0 (length sims)) []) as [Hperm Hsorted];
    [constructor|].
  split; [by rewrite Hperm, app_nil_r|].
  clear Hperm. induction Hsorted as [|i l Hl IH Hall]; constructor; [done|].
  eapply Forall_impl; [exact Hall|]. intros j. apply score_le_ascending.
Qed.

Lemma demo_argsort_spec : argsort_spec (np_argsort demo_env).
Proof. exact insertion_argsort_spec. Qed.

Lemma semantic_search_returns_top_k_witness :
  exists hits,
    semantic_search demo_env (loaded "policy.pdf").1
                    (embedding_engine (loaded "policy.pdf").2) "knee surgery" 1
    = Returns hits
    /\ length hits = 1.
Proof.
  destruct (semantic_search_returns_top_k demo_env (loaded "policy.pdf").1
              (embedding_engine (loaded "policy.pdf").2)
              [1; 2] [[124%Q; 1%Q]; [111%Q; 1%Q]]
              "knee surgery" [12%Q; 1%Q] [] 1)
    as (idxs & hits & Hres & _ & _ & Hlen & _).
  - exact demo_argsort_spec.
  - repeat split; vm_compute; (reflexivity || discriminate).
  - vm_compute; reflexivity.
  - lia.
  - exists hits. split; [exact Hres | exact Hlen].
Defined.

(** C1 as stated fails on ties.  The two pages of "twins.pdf" have the same
    text, so the two chunks have the same embedding and the same score; the
    chunk inserted second (object 2, position 1 of the corpus) is returned
    before the chunk inserted first (object 1, position 0). *)
Lemma tie_returns_later_chunk_first :
  deref_list (loaded "twins.pdf").1 (chunks (embedding_engine (loaded "twins.pdf").2))
  = [1; 2]
  /\ semantic_search demo_env (loaded "twins.pdf").1
                     (embedding_engine (loaded "twins.pdf").2) "knee surgery" 5
     = Returns [(2, 1333%Q); (1, 1333%Q)].
Proof. split; vm_compute; reflexivity. Qed.

(** The hits collected from a prefix of the ranking: one hit per position,
    each with its own score, best score first, and no position left out
    scores higher than a hit. *)
Lemma collected_prefix (env : Env) (refs : list loc) (sims : list Q) (n : nat) :
  argsort_spec (np_argsort env) ->
  length sims = length refs ->
  let idxs := take n (reverse (np_argsort env sims)) in
  exists hits,
    collect_results refs sims idxs = Returns hits
    /\ hits_at refs sims idxs hits
    /\ length hits = Nat.min n (length refs)
    /\ StronglySorted (fun a b => (b.2 <= a.2)%Q) hits
    /\ (forall j s hit, j < length sims -> sims !! j = Some s -> j ∉ idxs ->
                        hit ∈ hits -> (s <= hit.2)%Q).
Proof.
  intros Hspec Hsims idxs.
  destruct (ranking_prefix env Hspec sims n)
    as (Hlenidx & Hnodup & Hrange & Hsorted & Hdom).
  fold idxs in Hlenidx, Hnodup, Hrange, Hsorted, Hdom.
  destruct (collect_results_in_range refs sims idxs) as [hits [Hres Hat]].
  { eapply Forall_impl; [exact Hrange|]. simpl. intros i Hi. lia. }
  exists hits. split; [done|]. split; [done|].
  split; [by rewrite <- (Forall2_length _ _ _ Hat), Hlenidx, Hsims|]. split.
  - clear Hres Hlenidx Hnodup Hrange Hdom. clearbody idxs. revert Hsorted.
    induction Hat as [|idx hit idxs' hits' [Hr Hs] Hat IH]; intros Hsorted;
      [constructor|].
    apply StronglySorted_inv in Hsorted as [Hsorted Hall].
    constructor; [by apply IH|].
    apply Forall_forall. intros hit' Hhit'.
    pose proof (proj1 (Forall_forall _ _) Hall) as Hall'.
    apply list_elem_of_lookup in Hhit' as [m Hm].
    destruct (Forall2_lookup_r _ _ _ _ _ Hat Hm) as (idx' & Hidx' & _ & Hs').
    apply (Hall' idx'); [by eapply list_elem_of_lookup_2 | done..].
  - intros j s hit Hj Hs Hnot Hhit.
    apply list_elem_of_lookup in Hhit as [m Hm].
    destruct (Forall2_lookup_r _ _ _ _ _ Hat Hm) as (idx & Hidx & _ & Hs').
    apply (Hdom idx j); [by eapply list_elem_of_lookup_2 | done..].
Qed.

(** C9, as the code has it.  A non-positive [k] raises nothing: the slice
    [[:k]] of the ranking is taken as Python defines it.  The ranking
    (the reversed [np.argsort] result) splits into the positions kept and
    the positions dropped at its end; the hits are the chunks at the
    positions kept, each with its own score and best score first, and no
    dropped position scores higher than a hit.  With [k = 0] every position
    is dropped and no hit is returned; with [k < 0] the last [-k] positions
    are dropped (all of them when the corpus has no more), which leaves
    [max (n - |k|) 0] hits. *)
Theorem semantic_search_nonpositive_k
        (env : Env) (h : Heap) (self : EmbeddingEngine)
        (refs : list loc) (stored : list vector)
        (query : string) (qv : vector) (more : list vector) (top_k : Z) :
  argsort_spec (np_argsort env) ->
  index_built h self refs stored ->
  model_encode env [query] = Returns (qv :: more) ->
  (top_k <= 0)%Z ->
  let sims := map (cosine env qv) stored in
  exists idxs dropped hits,
    semantic_search env h self query top_k = Returns hits
    /\ reverse (np_argsort env sims) = idxs ++ dropped
    /\ hits_at refs sims idxs hits
    /\ (top_k = 0%Z -> idxs = [] /\ hits = [])
    /\ ((top_k < 0)%Z ->
        length dropped = Nat.min (Z.to_nat (- top_k)) (length refs)
        /\ idxs = take (length refs - Z.to_nat (- top_k)) (reverse (np_argsort env sims))
        /\ length hits = length refs - Z.to_nat (- top_k))
    /\ StronglySorted (fun a b => (b.2 <= a.2)%Q) hits
    /\ (forall j s hit, j ∈ dropped -> sims !! j = Some s -> hit ∈ hits ->
                        (s <= hit.2)%Q).
Proof.
  intros Hspec Hbuilt Henc Hk sims.
  pose proof Hbuilt as (_ & _ & _ & Hlen).
  assert (length sims = length refs) as Hsims by (unfold sims; by rewrite length_map).
  rewrite (semantic_search_built env h self refs stored query qv more top_k Hbuilt Henc).
  fold sims. set (ranking := reverse (np_argsort env sims)).
  assert (length ranking = length refs) as Hrank.
  { unfold ranking. by rewrite length_reverse, (argsort_length env Hspec). }
  set (n := if (0 <=? top_k)%Z then 0 else length refs - Z.to_nat (- top_k)).
  assert (slice_to top_k ranking = take n ranking) as ->.
  { unfold slice_to, n. destruct (0 <=? top_k)%Z eqn:Hsign.
    - by replace top_k with 0%Z by lia.
    - by rewrite Hrank. }
  destruct (collected_prefix env refs sims n Hspec Hsims)
    as (hits & Hres & Hat & Hlenhits & Hsorted & Hdom). fold ranking in Hres, Hat, Hdom.
  exists (take n ranking), (drop n ranking), hits.
  split; [done|]. split; [by rewrite take_drop|]. split; [done|]. split; [|split].
  - intros ->. simpl in *. split; [done|]. by inversion Hat.
  - intros Hneg. unfold n in *. replace (0 <=? top_k)%Z with false in * by lia.
    split; [|split; [done | lia]].
    rewrite length_drop, Hrank. lia.
  - split; [done|]. intros j s hit Hj Hs Hhit.
    apply (Hdom j s hit); [by eapply lookup_lt_Some | done | | done].
    intros Hin. pose proof (ranking_NoDup env Hspec sims) as Hnodup.
    fold ranking in Hnodup. rewrite <- (take_drop n ranking) in Hnodup.
    apply NoDup_app in Hnodup as (_ & Hdisj & _). by apply (Hdisj j).
Qed.

Lemma semantic_search_nonpositive_k_witness :
  exists hits,
    semantic_search demo_env (loaded "policy.pdf").1
                    (embedding_engine (loaded "policy.pdf").2) "knee surgery" (-1)
    = Returns hits
    /\ length hits = 1.
Proof.
  destruct (semantic_search_nonpositive_k demo_env (loaded "policy.pdf").1
              (embedding_engine (loaded "policy.pdf").2)
              [1; 2] [[124%Q; 1%Q]; [111%Q; 1%Q]]
              "knee surgery" [12%Q; 1%Q] [] (-1))
    as (idxs & dropped & hits & Hres & _ & _ & _ & Hneg & _).
  - exact demo_argsort_spec.
  - repeat split; vm_compute; (reflexivity || discriminate).
  - vm_compute; reflexivity.
  - lia.
  - exists hits. split; [exact Hres | apply Hneg; lia].
Defined.

(** C9 as stated fails: with [k = 0] and with [k = -1] the search on a
    built index returns a list; no error is raised. *)
Lemma nonpositive_k_raises_nothing :
  semantic_search demo_env (loaded "policy.pdf").1
                  (embedding_engine (loaded "policy.pdf").2) "knee surgery" 0
  = Returns []
  /\ semantic_search demo_env (loaded "policy.pdf").1
                     (embedding_engine (loaded "policy.pdf").2) "knee surgery" (-1)
     = Returns [(1, 1489%Q)].
Proof. split; vm_compute; reflexivity. Qed.

(** ** Well-formed stores *)

Section HeapInvariant.

Lemma empty_heap_wf : heap_wf empty_heap.
Proof.
  split.
  - intros l refs Hl. simpl in Hl. by rewrite lookup_empty in Hl.
  - intros r _. simpl. by rewrite !lookup_empty.
Qed.

Lemma new_chunk_wf (h : Heap) (c : DocumentChunk) :
  heap_wf h -> heap_wf (new_chunk h c).2.
Proof.
  intros [Hrefs Hfree]. split; simpl.
  - intros l refs Hl r Hr. destruct (Hrefs l refs Hl r Hr) as [c' Hc'].
    destruct (decide (next_loc h = r)) as [<-|Hne].
    + rewrite lookup_insert_eq. by eexists.
    + rewrite lookup_insert_ne; [by eexists | done].
  - intros r Hr. destruct (Hfree r) as [Hc Hl]; [lia|].
    split; [|done]. rewrite lookup_insert_ne; [done | lia].
Qed.

Lemma new_list_wf (h : Heap) (refs : list loc) :
  heap_wf h ->
  Forall (fun r => is_Some (chunk_objs h !! r)) refs ->
  heap_wf (new_list h refs).2.
Proof.
  intros [Hrefs Hfree] Hvalid. split; simpl.
  - intros l refs' Hl r Hr. destruct (decide (next_loc h = l)) as [<-|Hne].
    + rewrite lookup_insert_eq in Hl. injection Hl as <-.
      by apply (proj1 (Forall_forall _ _) Hvalid).
    + rewrite lookup_insert_ne in Hl; [by eapply Hrefs | done].
  - intros r Hr. destruct (Hfree r) as [Hc Hl]; [lia|].
    split; [done|]. rewrite lookup_insert_ne; [done | lia].
Qed.

Lemma set_embedding_wf (h : Heap) (r : loc) (v : vector) :
  heap_wf h -> heap_wf (set_embedding h r v).
Proof.
  intros [Hrefs Hfree]. split; simpl.
  - intros l refs Hl r' Hr'. destruct (Hrefs l refs Hl r' Hr') as [c Hc].
    destruct (decide (r = r')) as [<-|Hne].
    + rewrite lookup_alter_eq, Hc. by eexists.
    + rewrite lookup_alter_ne; [by eexists | done].
  - intros r' Hr'. destruct (Hfree r' Hr') as [Hc Hl]. split; [|done].
    destruct (decide (r = r')) as [<-|Hne].
    + by rewrite lookup_alter_eq, Hc.
    + by rewrite lookup_alter_ne.
Qed.

End HeapInvariant.

(** ** create_embeddings *)

Section Store.

Context (embs : list vector).

Lemma with_embedding_twice (v w : vector) (c : option DocumentChunk) :
  with_embedding v <$> (with_embedding w <$> c) = with_embedding v <$> c.
Proof. by destruct c. Qed.

(** The assignment writes the [embedding] field and no other. *)
Lemma with_embedding_embedded (v : vector) (c : DocumentChunk) :
  embedded_as v c (with_embedding v c).
Proof. by repeat split. Qed.

(** The loop touches neither the list objects nor the allocation pointer. *)
Lemma store_embeddings_frame (refs : list loc) (h : Heap) (i : nat) :
  list_objs (store_embeddings h i refs embs).2 = list_objs h
  /\ next_loc (store_embeddings h i refs embs).2 = next_loc h.
Proof.
  revert h i. induction refs as [|r refs IH]; intros h i; simpl; [done|].
  destruct (embs !! i) as [v|]; [|done]. by destruct (IH (set_embedding h r v) (S i)).
Qed.

(** With a vector for every position, the loop completes; an object outside
    the list is untouched, and an object of the list ends with the vector of
    its last position. *)
Lemma store_embeddings_spec (refs : list loc) (h : Heap) (i : nat) :
  i + length refs <= length embs ->
  (store_embeddings h i refs embs).1 = Returns tt
  /\ (forall r, r ∉ refs ->
        chunk_objs (store_embeddings h i refs embs).2 !! r = chunk_objs h !! r)
  /\ (forall n r v, refs !! n = Some r -> r ∉ drop (S n) refs ->
        embs !! (i + n) = Some v ->
        chunk_objs (store_embeddings h i refs embs).2 !! r
        = with_embedding v <$> chunk_objs h !! r).
Proof.
  revert h i. induction refs as [|r0 refs IH]; intros h i Hlen; simpl in *.
  - split; [done|]. split; [done|]. intros n r v Hn. by destruct n.
  - destruct (lookup_lt_is_Some_2 embs i) as [v0 Hv0]; [lia|]. rewrite Hv0.
    destruct (IH (set_embedding h r0 v0) (S i)) as (Hret & Hout & Hin); [lia|].
    split; [done|]. split.
    + intros r Hr. apply not_elem_of_cons in Hr as [Hne Hr].
      rewrite (Hout r Hr). simpl. by rewrite lookup_alter_ne.
    + intros [|n] r v Hn Hlast Hv; simpl in *.
      * injection Hn as ->. rewrite Nat.add_0_r, Hv0 in Hv. injection Hv as ->.
        rewrite drop_0 in Hlast. rewrite (Hout r Hlast). simpl.
        by rewrite lookup_alter_eq.
      * rewrite (Hin n r v Hn Hlast); [|by rewrite <- Hv; f_equal; lia]. simpl.
        destruct (decide (r0 = r)) as [->|Hne].
        -- by rewrite lookup_alter_eq, with_embedding_twice.
        -- by rewrite lookup_alter_ne.
Qed.

End Store.

Lemma get_chunks_length (h : Heap) (refs : list loc) :
  Forall (fun r => is_Some (chunk_objs h !! r)) refs ->
  length (get_chunks h refs) = length refs.
Proof.
  induction 1 as [|r refs [c Hc] _ IH]; [done|].
  unfold get_chunks in *. simpl. rewrite Hc. simpl. by f_equal.
Qed.

Lemma create_embeddings_unfold (env : Env) (h : Heap) (self : EmbeddingEngine)
      (l : loc) (refs : list loc) :
  list_objs h !! l = Some refs ->
  create_embeddings env l (h, self)
  = match model_encode env (map text (get_chunks h refs)) with
    | Raises e => (Raises e, (h, {| chunks := l; embeddings := embeddings self |}))
    | Returns embs =>
        ((store_embeddings h 0 refs embs).1,
         ((store_embeddings h 0 refs embs).2, {| chunks := l; embeddings := Some embs |}))
    end.
Proof.
  intros Hl. unfold create_embeddings, deref_list. simpl. rewrite Hl. simpl.
  destruct (model_encode env _); [|done]. by destruct (store_embeddings _ _ _ _).
Qed.

(** C10.  [create_embeddings] keeps the caller's list object as the engine's
    corpus: the engine's [chunks] attribute is the reference it was given
    and no list object is created or changed.  The attribute is reassigned
    before the embedding call, so it is already the new list when that call
    raises, the stored matrix being still the old one.  When the call
    returns one vector per chunk, the matrix is stored and each vector is
    written into the [embedding] field of the caller's chunk object at the
    same position, every other field and every other object unchanged. *)
Theorem create_embeddings_mutates_callers_chunks
        (env : Env) (h : Heap) (self : EmbeddingEngine) (l : loc) (refs : list loc) :
  list_objs h !! l = Some refs ->
  refs <> [] ->
  Forall (fun r => is_Some (chunk_objs h !! r)) refs ->
  let texts := map text (get_chunks h refs) in
  let out := (create_embeddings env l (h, self)).1 in
  let h' := (create_embeddings env l (h, self)).2.1 in
  let self' := (create_embeddings env l (h, self)).2.2 in
  length texts = length refs
  /\ chunks self' = l
  /\ list_objs h' = list_objs h
  /\ next_loc h' = next_loc h
  /\ (forall e, model_encode env texts = Raises e ->
        out = Raises e /\ h' = h /\ embeddings self' = embeddings self)
  /\ (forall embs, model_encode env texts = Returns embs ->
        length embs = length refs ->
        out = Returns tt
        /\ embeddings self' = Some embs
        /\ (forall r, r ∉ refs -> chunk_objs h' !! r = chunk_objs h !! r)
        /\ (forall n r v c, refs !! n = Some r -> r ∉ drop (S n) refs ->
              embs !! n = Some v ->
              chunk_objs h !! r = Some c ->
              exists c', chunk_objs h' !! r = Some c' /\ embedded_as v c c')).
Proof.
  intros Hl Hne Hvalid. cbn zeta.
  rewrite (create_embeddings_unfold env h self l refs Hl).
  split; [by rewrite length_map, get_chunks_length|].
  destruct (model_encode env (map text (get_chunks h refs))) as [embs|e] eqn:Henc.
  - pose proof (store_embeddings_frame embs refs h 0) as [Hlists Hnext]. simpl.
    split; [done|]. split; [done|]. split; [done|]. split; [done|].
    intros embs' [= <-] Hlen.
    destruct (store_embeddings_spec embs refs h 0) as (Hret & Hout & Hin); [lia|].
    split; [done|]. split; [done|]. split; [done|].
    intros n r v c Hn Hlast Hv Hc. exists (with_embedding v c).
    split; [|apply with_embedding_embedded].
    by rewrite (Hin n r v Hn Hlast Hv), Hc.
  - simpl. split; [done|]. split; [done|]. split; [done|]. split; [|done].
    by intros e' [= <-].
Qed.

Lemma create_embeddings_mutates_callers_chunks_witness :
  chunks (create_embeddings demo_env 2 (callers_heap, idle_engine)).2.2 = 2
  /\ exists c',
       chunk_objs (create_embeddings demo_env 2 (callers_heap, idle_engine)).2.1 !! 1
       = Some c'
       /\ embedded_as [36%Q; 1%Q] (chunk_of_text "Cosmetic procedures are not covered.") c'.
Proof.
  destruct (create_embeddings_mutates_callers_chunks demo_env callers_heap idle_engine
              2 [0; 1])
    as (_ & Hchunks & _ & _ & _ & Hok).
  - vm_compute; reflexivity.
  - discriminate.
  - repeat constructor; vm_compute; eexists; reflexivity.
  - split; [exact Hchunks|].
    destruct (Hok [[43%Q; 1%Q]; [36%Q; 1%Q]]) as (_ & _ & _ & Hwritten);
      [vm_compute; reflexivity..|].
    apply (Hwritten 1 1); [reflexivity | | reflexivity | reflexivity].
    simpl. intros H. inversion H.
Defined.

(** ** process_document and query *)

Section Orchestrator.

Context (env : Env).

Lemma process_document_extract_raises (pdf_path : string) (st : Heap * RAGPolicyQA)
      (e : exn) :
  PDFProcessor.extract_text_from_pdf env pdf_path = Raises e ->
  process_document env pdf_path st = (Raises e, st).
Proof. intros H. unfold process_document. destruct st. by rewrite H. Qed.

Lemma process_document_no_chunk (pdf_path : string) (st : Heap * RAGPolicyQA) :
  PDFProcessor.extract_text_from_pdf env pdf_path = Returns [] ->
  process_document env pdf_path st = (Raises (ValueError (no_text_msg pdf_path)), st).
Proof. intros H. unfold process_document. destruct st. by rewrite H. Qed.

(** The audit loop accepts the citations the fallback builds. *)
Lemma audit_fallback_clauses (relevant_chunks : list hit) :
  audit_clauses (map (fun '(chunk, _) => clause_entry chunk) relevant_chunks) = Returns tt.
Proof.
  induction relevant_chunks as [|[chunk score] rest IH]; [done|]. simpl. exact IH.
Qed.

(** On a built index a positive [k] yields at least one hit. *)
Lemma semantic_search_some_hit (h : Heap) (self : EmbeddingEngine)
      (refs : list loc) (stored : list vector)
      (query : string) (qv : vector) (more : list vector) (top_k : Z) :
  argsort_spec (np_argsort env) ->
  index_built h self refs stored ->
  model_encode env [query] = Returns (qv :: more) ->
  (0 < top_k)%Z ->
  exists hit hits, semantic_search env h self query top_k = Returns (hit :: hits).
Proof.
  intros Hspec Hbuilt Henc Hk. pose proof Hbuilt as (_ & _ & Hne & Hlen).
  rewrite (semantic_search_built env h self refs stored query qv more top_k Hbuilt Henc).
  set (sims := map (cosine env qv) stored).
  assert (length sims = length refs) as Hsims by (unfold sims; by rewrite length_map).
  unfold slice_to. replace (0 <=? top_k)%Z with true by lia.
  destruct (ranking_prefix env Hspec sims (Z.to_nat top_k)) as (Hlenidx & _ & Hrange & _).
  destruct (collect_results_in_range refs sims
              (take (Z.to_nat top_k) (reverse (np_argsort env sims))))
    as [hits [Hres Hat]].
  { eapply Forall_impl; [exact Hrange|]. simpl. intros i Hi. lia. }
  rewrite Hres. apply Forall2_length in Hat. rewrite Hlenidx in Hat.
  destruct hits as [|hit hits]; [|by eauto].
  destruct refs; [done|]. simpl in *. lia.
Qed.

(** In the state [Ready], without a key, a query with a positive [k] whose
    text the model embeds returns a result. *)
Lemma query_ready_returns (st : Heap * RAGPolicyQA)
      (user_query : string) (qv : vector) (more : list vector) (top_k : Z) :
  Ready st ->
  argsort_spec (np_argsort env) ->
  has_key (llm_engine st.2) = false ->
  model_encode env [user_query] = Returns (qv :: more) ->
  (0 < top_k)%Z ->
  exists r, query env st user_query top_k = Returns r.
Proof.
  destruct st as [h self]. intros [Hinit (refs & stored & Hbuilt)] Hspec Hkey Henc Hk.
  simpl in *. unfold query. rewrite Hinit. cbn [negb].
  destruct (semantic_search_some_hit h (embedding_engine self) refs stored
              user_query qv more top_k Hspec Hbuilt Henc Hk) as (hit & hits & ->).
  cbn [mbind outcome_bind]. unfold generate_response. rewrite Hkey.
  cbn [negb try_except mbind outcome_bind clause_mapping _fallback_reasoning py_iter].
  rewrite audit_fallback_clauses. by eexists.
Qed.

End Orchestrator.

(** C6, as the code has it.  When [process_document] fails in the chunking
    step, because the extraction raises or because it yields no chunk, the
    orchestrator and the store are left exactly as they were: the state is
    still [Ready], every later query returns what it returned before, and a
    query that the prior corpus can answer still succeeds. *)
Theorem failed_chunking_keeps_corpus
        (env : Env) (pdf_path : string) (st : Heap * RAGPolicyQA) :
  Ready st ->
  raised (PDFProcessor.extract_text_from_pdf env pdf_path)
  \/ PDFProcessor.extract_text_from_pdf env pdf_path = Returns [] ->
  raised (process_document env pdf_path st).1
  /\ (process_document env pdf_path st).2 = st
  /\ Ready (process_document env pdf_path st).2
  /\ (forall user_query top_k,
        query env (process_document env pdf_path st).2 user_query top_k
        = query env st user_query top_k)
  /\ (forall user_query qv more top_k,
        argsort_spec (np_argsort env) ->
        has_key (llm_engine st.2) = false ->
        model_encode env [user_query] = Returns (qv :: more) ->
        (0 < top_k)%Z ->
        exists r, query env (process_document env pdf_path st).2 user_query top_k
                  = Returns r).
Proof.
  intros Hready Hfail.
  assert (exists e, process_document env pdf_path st = (Raises e, st)) as [e ->].
  { destruct Hfail as [[e He] | Hnone].
    - exists e. by apply process_document_extract_raises.
    - eexists. by apply process_document_no_chunk. }
  simpl. split; [by exists e|]. split; [done|]. split; [done|]. split; [done|].
  intros user_query qv more top_k Hspec Hkey Henc Hk.
  by eapply query_ready_returns.
Qed.

Lemma loaded_policy_ready : Ready (loaded "policy.pdf").
Proof.
  split; [vm_compute; reflexivity|].
  exists [1; 2], [[124%Q; 1%Q]; [111%Q; 1%Q]].
  repeat split; vm_compute; (reflexivity || discriminate).
Qed.

Lemma failed_chunking_keeps_corpus_witness :
  (process_document demo_env "blank.pdf" (loaded "policy.pdf")).2 = loaded "policy.pdf"
  /\ exists r, query demo_env (process_document demo_env "blank.pdf" (loaded "policy.pdf")).2
                     "knee surgery" 5 = Returns r.
Proof.
  destruct (failed_chunking_keeps_corpus demo_env "blank.pdf" (loaded "policy.pdf"))
    as (_ & Hsame & _ & _ & Hquery).
  - exact loaded_policy_ready.
  - right. vm_compute. reflexivity.
  - split; [exact Hsame|].
    apply (Hquery "knee surgery" [12%Q; 1%Q] []);
      [exact demo_argsort_spec | reflexivity | reflexivity | lia].
Defined.

(** C6 as stated fails when the embedding step fails.  After "policy.pdf"
    was loaded, the reload of "annex.pdf" raises in the embedding model; by
    then the engine's chunk list is the new one-chunk list (object 5), while
    the matrix still has the two rows of the prior corpus.  The query that
    succeeded before the reload now raises [IndexError]. *)
Lemma failed_embedding_replaces_chunk_list :
  Ready (loaded "policy.pdf")
  /\ (process_document demo_env "annex.pdf" (loaded "policy.pdf")).1
     = Raises (LibraryError "sentence_transformers")
  /\ deref_list (loaded "policy.pdf").1 (chunks (embedding_engine (loaded "policy.pdf").2))
     = [1; 2]
  /\ deref_list after_failed_reload.1 (chunks (embedding_engine after_failed_reload.2))
     = [4]
  /\ embeddings (embedding_engine after_failed_reload.2)
     = Some [[124%Q; 1%Q]; [111%Q; 1%Q]]
  /\ (exists r, query demo_env (loaded "policy.pdf") "knee surgery" 5 = Returns r)
  /\ query demo_env after_failed_reload "knee surgery" 5 = Raises IndexError.
Proof.
  split; [exact loaded_policy_ready|].
  repeat split; try (vm_compute; reflexivity).
  eexists. vm_compute. reflexivity.
Qed.

(** ** Section tagging *)

Section Sections.

Import PDFProcessor.





End Sections.




(** * Further properties *)

(** ** Decimal numerals and chunk identifiers *)

Section ChunkIds.

Import PDFProcessor.

Lemma str_of_nat_inj (n m : nat) : str_of_nat n = str_of_nat m -> n = m.
Proof.
  unfold str_of_nat. intros H.
  apply (f_equal NilEmpty.uint_of_string) in H. rewrite !NilEmpty.usu in H.
  injection H as H. apply (f_equal Nat.of_uint) in H.
  by rewrite !DecimalNat.Unsigned.of_to in H.
Qed.

Lemma string_of_uint_digits (d : Decimal.uint) :
  all_digits (NilEmpty.string_of_uint d) = true.
Proof. induction d; simpl; by rewrite ?IHd. Qed.

Lemma str_of_nat_digits (n : nat) : all_digits (str_of_nat n) = true.
Proof. apply string_of_uint_digits. Qed.

Lemma append_inv_head (s a b : string) : s +:+ a = s +:+ b -> a = b.
Proof.
  induction s as [|c s IH]; [done|]. rewrite !append_cons. intros [= H]. by apply IH.
Qed.

(** Two numerals followed by a non-digit are equal when the whole strings
    are. *)
Lemma numeral_then_mark (a b x y : string) (mark : ascii) :
  all_digits a = true -> all_digits b = true -> is_digit mark = false ->
  a +:+ String mark x = b +:+ String mark y -> a = b /\ x = y.
Proof.
  revert b. induction a as [|c a IH]; intros [|c' b] Ha Hb Hmark; simpl in *.
  - by intros [= ->].
  - rewrite append_nil, append_cons. intros [= -> _].
    apply andb_true_iff in Hb as [Hb _]. congruence.
  - rewrite append_nil, append_cons. intros [= -> _].
    apply andb_true_iff in Ha as [Ha _]. congruence.
  - rewrite !append_cons. intros [= -> H].
    apply andb_true_iff in Ha as [_ Ha]. apply andb_true_iff in Hb as [_ Hb].
    destruct (IH b Ha Hb Hmark H) as [-> ->]. done.
Qed.

Lemma make_chunk_id_inj (fname : string) (p k p' k' : nat) :
  make_chunk_id fname p k = make_chunk_id fname p' k' -> p = p' /\ k = k'.
Proof.
  unfold make_chunk_id. intros H. apply append_inv_head in H.
  change ("_p" +:+ ?x) with (String "_" (String "p" x)) in H.
  injection H as H.
  change ("_c" +:+ ?x) with (String "_" (String "c" x)) in H.
  apply numeral_then_mark in H as [Hp Hk];
    [|apply str_of_nat_digits..|done].
  injection Hk as Hk. apply str_of_nat_inj in Hp, Hk. lia.
Qed.

Lemma page_chunks_from_ids (fname sec : string) (page_num chunk_idx : nat)
      (page_chunks : list string) (chunk : DocumentChunk) :
  chunk ∈ page_chunks_from fname sec page_num chunk_idx page_chunks ->
  exists k, chunk_idx <= k /\ chunk_id chunk = make_chunk_id fname page_num k.
Proof.
  revert chunk_idx. induction page_chunks as [|t rest IH]; intros chunk_idx; simpl.
  - by intros ?%elem_of_nil.
  - assert (chunk ∈ page_chunks_from fname sec page_num (S chunk_idx) rest ->
            exists k, chunk_idx <= k /\ chunk_id chunk = make_chunk_id fname page_num k)
      as Htail.
    { intros Hin. destruct (IH _ Hin) as (k & Hk & Hid). exists k. split; [lia | done]. }
    destruct (String.length (strip t) <? 50); [done|].
    intros [->|Hin]%elem_of_cons; [|by apply Htail].
    exists chunk_idx. split; [lia | done].
Qed.

Lemma page_chunks_from_NoDup (fname sec : string) (page_num chunk_idx : nat)
      (page_chunks : list string) :
  NoDup (map chunk_id (page_chunks_from fname sec page_num chunk_idx page_chunks)).
Proof.
  revert chunk_idx. induction page_chunks as [|t rest IH]; intros chunk_idx; simpl.
  - constructor.
  - destruct (String.length (strip t) <? 50); [by apply IH|].
    simpl. constructor; [|by apply IH].
    intros (c & Hid & Hin)%list_elem_of_fmap.
    apply page_chunks_from_ids in Hin as (k & Hk & Hid').
    rewrite Hid' in Hid. apply make_chunk_id_inj in Hid. lia.
Qed.

Lemma pages_from_ids (fname : string) (pages : list string) (page_num : nat)
      (chunk : DocumentChunk) :
  chunk ∈ pages_from fname page_num pages ->
  exists p k, page_num <= p /\ chunk_id chunk = make_chunk_id fname p k.
Proof.
  revert page_num. induction pages as [|t rest IH]; intros page_num; simpl.
  - by intros ?%elem_of_nil.
  - intros [Hhere|Hlater]%elem_of_app.
    + unfold page_chunks_of in Hhere.
      destruct (negb (nonempty (strip t))); [by apply elem_of_nil in Hhere|].
      apply page_chunks_from_ids in Hhere as (k & _ & Hid). by exists page_num, k.
    + destruct (IH _ Hlater) as (p & k & Hp & Hid). exists p, k. split; [lia | done].
Qed.

Lemma pages_from_NoDup (fname : string) (pages : list string) (page_num : nat) :
  NoDup (map chunk_id (pages_from fname page_num pages)).
Proof.
  revert page_num. induction pages as [|t rest IH]; intros page_num; simpl.
  - constructor.
  - rewrite map_app. apply NoDup_app. split; [|split; [|by apply IH]].
    + unfold page_chunks_of. destruct (negb (nonempty (strip t))); [constructor|].
      apply page_chunks_from_NoDup.
    + intros id (c & -> & Hc)%list_elem_of_fmap (c' & Hid & Hc')%list_elem_of_fmap.
      unfold page_chunks_of in Hc.
      destruct (negb (nonempty (strip t))); [by apply elem_of_nil in Hc|].
      apply page_chunks_from_ids in Hc as (k & _ & Hk).
      apply pages_from_ids in Hc' as (p' & k' & Hp' & Hk').
      rewrite Hk, Hk' in Hid. apply make_chunk_id_inj in Hid. lia.
Qed.

End ChunkIds.

(** X2.  The chunk identifiers of one extraction are pairwise distinct. *)
Theorem extracted_chunk_ids_are_distinct
        (env : Env) (pdf_path : string) (extracted : list DocumentChunk) :
  PDFProcessor.extract_text_from_pdf env pdf_path = Returns extracted ->
  NoDup (map chunk_id extracted).
Proof.
  unfold PDFProcessor.extract_text_from_pdf.
  destruct (fitz_pages env pdf_path) as [pages|e]; [|done].
  intros [= <-]. apply pages_from_NoDup.
Qed.

Lemma extracted_chunk_ids_are_distinct_witness :
  NoDup (map chunk_id (PDFProcessor.pages_from "twins.pdf" 0
                         [exclusions_page; exclusions_page])).
Proof.
  apply (extracted_chunk_ids_are_distinct demo_env "twins.pdf"). reflexivity.
Defined.

(** ** Extraction: the fields of a chunk and blank pages *)

Section Extraction.

Import PDFProcessor.





End Extraction.





(** ** The chunker *)

Section Chunker.

Import PDFProcessor.
















End Chunker.





Section ShortPage.

Import PDFProcessor.







End ShortPage.



(** ** The orchestrator: the loaded flag *)

Section LoadedFlag.

Context (env : Env).

Lemma process_document_flag (pdf_path : string) (st : Heap * RAGPolicyQA) :
  is_initialized (process_document env pdf_path st).2.2
  = is_initialized st.2 || returned (process_document env pdf_path st).1
  /\ llm_engine (process_document env pdf_path st).2.2 = llm_engine st.2.
Proof.
  destruct st as [h self]. unfold process_document.
  destruct (PDFProcessor.extract_text_from_pdf env pdf_path) as [[|c cs]|e];
    [simpl; by rewrite orb_false_r | | simpl; by rewrite orb_false_r].
  destruct (new_chunks h (c :: cs)) as [refs h1].
  destruct (new_list h1 refs) as [l h2].
  destruct (create_embeddings env l (h2, embedding_engine self)) as [[u|e] [h3 eng]];
    simpl; by destruct (is_initialized self).
Qed.

Lemma load_all_flag (paths : list string) (st : Heap * RAGPolicyQA) :
  is_initialized (load_all env paths st).2.2
  = is_initialized st.2 || existsb returned (load_all env paths st).1
  /\ llm_engine (load_all env paths st).2.2 = llm_engine st.2.
Proof.
  revert st. induction paths as [|p rest IH]; intros st; simpl.
  - by rewrite orb_false_r.
  - destruct (process_document_flag p st) as [Hflag Hllm].
    destruct (process_document env p st) as [r st1]. simpl in *.
    destruct (IH st1) as [Hflag' Hllm'].
    destruct (load_all env rest st1) as [rs st2]. simpl in *.
    rewrite Hflag', Hflag, Hllm', Hllm. by rewrite orb_assoc.
Qed.

End LoadedFlag.

(** X8.  After any series of [process_document] calls the orchestrator is
    initialised exactly when it was before or one of the calls returned: a
    failed call never sets the flag and no call clears it.  While the flag
    is unset every query raises the "No document loaded" error, whatever the
    query, [k] and the state of the engine. *)
Theorem loaded_flag_tracks_success
        (env : Env) (paths : list string) (st : Heap * RAGPolicyQA) :
  is_initialized (load_all env paths st).2.2
  = is_initialized st.2 || existsb returned (load_all env paths st).1
  /\ (is_initialized (load_all env paths st).2.2 = false ->
      forall user_query top_k,
        query env (load_all env paths st).2 user_query top_k
        = Raises (ValueError "No document loaded. Call process_document first.")).
Proof.
  split; [apply load_all_flag|].
  destruct (load_all env paths st) as [rs [h self]]. simpl.
  intros Hflag user_query top_k. unfold query. by rewrite Hflag.
Qed.

(** ** The orchestrator: a successful load *)

Section SuccessfulLoad.

Context (env : Env).

(** Construction of the chunk objects: consecutive fresh locations, in
    order, nothing else touched. *)
Lemma new_chunks_spec (cs : list DocumentChunk) (h : Heap) :
  (new_chunks h cs).1 = seq (next_loc h) (length cs)
  /\ next_loc (new_chunks h cs).2 = next_loc h + length cs
  /\ list_objs (new_chunks h cs).2 = list_objs h
  /\ (forall r, r < next_loc h ->
        chunk_objs (new_chunks h cs).2 !! r = chunk_objs h !! r)
  /\ (forall i c, cs !! i = Some c ->
        chunk_objs (new_chunks h cs).2 !! (next_loc h + i) = Some c).
Proof.
  revert h. induction cs as [|c cs IH]; intros h.
  - simpl. split; [done|]. split; [lia|]. split; [done|]. split; [done|]. by intros [].
  - change (new_chunks h (c :: cs))
      with (let '(rs, h2) := new_chunks (new_chunk h c).2 cs in (next_loc h :: rs, h2)).
    destruct (IH (new_chunk h c).2) as (Hrefs & Hnext & Hlists & Hold & Hnew).
    destruct (new_chunks (new_chunk h c).2 cs) as [rs h2]. simpl in *.
    split; [by rewrite Hrefs|]. split; [lia|]. split; [done|]. split.
    + intros r Hr. rewrite Hold by lia. by rewrite lookup_insert_ne by lia.
    + intros [|i] c' Hc'; simpl in *.
      * injection Hc' as <-. rewrite Nat.add_0_r, Hold by lia.
        by rewrite lookup_insert_eq.
      * replace (next_loc h + S i) with (S (next_loc h) + i) by lia. by apply Hnew.
Qed.

Lemma get_chunks_seq (h : Heap) (cs : list DocumentChunk) (n : nat) :
  (forall i c, cs !! i = Some c -> chunk_objs h !! (n + i) = Some c) ->
  get_chunks h (seq n (length cs)) = cs.
Proof.
  revert n. induction cs as [|c cs IH]; intros n Hobjs; [done|].
  change (seq n (length (c :: cs))) with (n :: seq (S n) (length cs)).
  unfold get_chunks in *. cbn [omap list_omap].
  pose proof (Hobjs 0 c eq_refl) as H0. rewrite Nat.add_0_r in H0.
  unfold loc in *. rewrite H0.
  f_equal. apply IH. intros i c' Hc'.
  replace (S n + i) with (n + S i) by lia. by apply Hobjs.
Qed.

Lemma seq_last_occurrence (n len i r : nat) :
  seq n len !! i = Some r -> r ∉ drop (S i) (seq n len).
Proof.
  intros Hi Hin. apply lookup_seq in Hi as [-> Hlt].
  apply list_elem_of_lookup in Hin as [j Hj]. rewrite lookup_drop in Hj.
  apply lookup_seq in Hj as [Hj _]. lia.
Qed.

End SuccessfulLoad.

Lemma process_document_nonempty (env : Env) (pdf_path : string)
      (h : Heap) (self : RAGPolicyQA) (cs : list DocumentChunk) :
  PDFProcessor.extract_text_from_pdf env pdf_path = Returns cs ->
  cs <> [] ->
  process_document env pdf_path (h, self)
  = let h1 := (new_chunks h cs).2 in
    let refs := (new_chunks h cs).1 in
    let h2 := (new_list h1 refs).2 in
    let l := (new_list h1 refs).1 in
    let res := create_embeddings env l (h2, embedding_engine self) in
    match res.1 with
    | Raises e =>
        (Raises e, (res.2.1, {| embedding_engine := res.2.2;
                                llm_engine := llm_engine self;
                                is_initialized := is_initialized self |}))
    | Returns _ =>
        (Returns tt, (res.2.1, {| embedding_engine := res.2.2;
                                  llm_engine := llm_engine self;
                                  is_initialized := true |}))
    end.
Proof.
  intros Hext Hne. unfold process_document. rewrite Hext.
  destruct cs as [|c cs]; [done|].
  destruct (new_chunks h (c :: cs)) as [refs h1].
  unfold new_list. cbn [fst snd].
  match goal with
  | |- context [create_embeddings ?e ?l ?s] =>
      destruct (create_embeddings e l s) as [[u|err] [h3 eng]]
  end; done.
Qed.

(** What a successful load leaves behind. *)
Lemma successful_load_spec
        (env : Env) (pdf_path : string) (st : Heap * RAGPolicyQA)
        (cs : list DocumentChunk) (embs : list vector) :
  PDFProcessor.extract_text_from_pdf env pdf_path = Returns cs ->
  cs <> [] ->
  model_encode env (map text cs) = Returns embs ->
  length embs = length cs ->
  (process_document env pdf_path st).1 = Returns tt
  /\ Ready (process_document env pdf_path st).2
  /\ embeddings (embedding_engine (process_document env pdf_path st).2.2) = Some embs
  /\ length (deref_list (process_document env pdf_path st).2.1
               (chunks (embedding_engine (process_document env pdf_path st).2.2)))
     = length cs
  /\ (forall i c v, cs !! i = Some c -> embs !! i = Some v ->
        exists r,
          deref_list (process_document env pdf_path st).2.1
            (chunks (embedding_engine (process_document env pdf_path st).2.2)) !! i
          = Some r
          /\ next_loc st.1 <= r
          /\ exists c',
               chunk_objs (process_document env pdf_path st).2.1 !! r = Some c'
               /\ embedded_as v c c')
  /\ (forall r, r < next_loc st.1 ->
        chunk_objs (process_document env pdf_path st).2.1 !! r = chunk_objs st.1 !! r
        /\ list_objs (process_document env pdf_path st).2.1 !! r = list_objs st.1 !! r).
Proof.
  intros Hext Hne Henc Hlen. destruct st as [h self].
  rewrite (process_document_nonempty env pdf_path h self cs Hext Hne). cbn zeta.
  destruct (new_chunks_spec cs h) as (Hrefs & Hnext & Hlists & Hold & Hnew).
  destruct (new_chunks h cs) as [refs h1]. cbn [fst snd] in *. subst refs.
  set (refs := seq (next_loc h) (length cs)).
  set (h2 := (new_list h1 refs).2). set (l := (new_list h1 refs).1).
  assert (list_objs h2 !! l = Some refs) as Hl by apply lookup_insert_eq.
  assert (get_chunks h2 refs = cs) as Hget by (by apply get_chunks_seq).
  rewrite (create_embeddings_unfold env h2 (embedding_engine self) l refs Hl).
  rewrite Hget, Henc. cbn [fst snd].
  assert (length refs = length cs) as Hlenrefs by apply length_seq.
  destruct (store_embeddings_spec embs refs h2 0) as (Hret & Hout & Hin);
    [unfold loc in *; lia|].
  destruct (store_embeddings_frame embs refs h2 0) as [Hframe _].
  rewrite Hret. cbn [fst snd embedding_engine embeddings chunks is_initialized].
  assert (deref_list (store_embeddings h2 0 refs embs).2 l = refs) as Hderef.
  { unfold deref_list. rewrite Hframe. unfold loc in *. by rewrite Hl. }
  rewrite Hderef. unfold loc in *.
  split; [done|]. split.
  { split; [done|]. exists refs, embs. repeat split; simpl.
    - by rewrite Hframe.
    - intros Hnil. apply Hne. destruct cs; [done|]. discriminate.
    - unfold loc in *. lia. }
  split; [done|]. split; [done|]. split.
  - intros i c v Hc Hv. exists (next_loc h + i).
    assert (refs !! i = Some (next_loc h + i)) as Hi.
    { apply lookup_seq. split; [done|]. by eapply lookup_lt_Some. }
    split; [done|]. split; [lia|].
    exists (with_embedding v c). split; [|apply with_embedding_embedded].
    rewrite (Hin i (next_loc h + i) v Hi); [|by eapply seq_last_occurrence|done].
    change (chunk_objs h2) with (chunk_objs h1). by rewrite (Hnew i c Hc).
  - intros r Hr. split.
    + rewrite Hout; [by apply Hold|].
      intros Hmem. apply elem_of_seq in Hmem. lia.
    + rewrite Hframe. simpl. rewrite lookup_insert_ne by lia. by rewrite Hlists.
Qed.

(** X9.  When the extraction yields chunks and the model returns one vector
    per chunk, [process_document] returns and the orchestrator is [Ready]:
    the engine holds the new matrix and a list of as many fresh chunk
    objects as chunks were extracted, each the extracted chunk at its
    position with the vector of that position as embedding.  The objects
    that existed before the call are unchanged. *)
Theorem successful_load_installs_new_corpus
        (env : Env) (pdf_path : string) (st : Heap * RAGPolicyQA)
        (cs : list DocumentChunk) (embs : list vector) :
  PDFProcessor.extract_text_from_pdf env pdf_path = Returns cs ->
  cs <> [] ->
  model_encode env (map text cs) = Returns embs ->
  length embs = length cs ->
  (process_document env pdf_path st).1 = Returns tt
  /\ Ready (process_document env pdf_path st).2
  /\ embeddings (embedding_engine (process_document env pdf_path st).2.2) = Some embs
  /\ length (deref_list (process_document env pdf_path st).2.1
               (chunks (embedding_engine (process_document env pdf_path st).2.2)))
     = length cs
  /\ (forall i c v, cs !! i = Some c -> embs !! i = Some v ->
        exists r,
          deref_list (process_document env pdf_path st).2.1
            (chunks (embedding_engine (process_document env pdf_path st).2.2)) !! i
          = Some r
          /\ next_loc st.1 <= r
          /\ exists c',
               chunk_objs (process_document env pdf_path st).2.1 !! r = Some c'
               /\ embedded_as v c c')
  /\ (forall r, r < next_loc st.1 ->
        chunk_objs (process_document env pdf_path st).2.1 !! r = chunk_objs st.1 !! r
        /\ list_objs (process_document env pdf_path st).2.1 !! r = list_objs st.1 !! r).
Proof. apply successful_load_spec. Qed.

Lemma successful_load_installs_new_corpus_witness :
  (process_document demo_env "policy.pdf" (RAGPolicyQA_init empty_heap None)).1
  = Returns tt
  /\ Ready (loaded "policy.pdf").
Proof.
  destruct (successful_load_installs_new_corpus demo_env "policy.pdf"
              (RAGPolicyQA_init empty_heap None)
              (PDFProcessor.pages_from "policy.pdf" 0 [coverage_page; exclusions_page])
              [[124%Q; 1%Q]; [111%Q; 1%Q]])
    as (Hret & Hready & _).
  - reflexivity.
  - vm_compute. discriminate.
  - vm_compute. reflexivity.
  - vm_compute. reflexivity.
  - split; [exact Hret | exact Hready].
Defined.

(** ** The fallback strategy: justification and provenance *)

Section FallbackText.

Lemma in_range_truthy (a : Q) : in_range a = true -> amount_truthy (Some a) = true.
Proof.
  intros [Hlow _]%in_range_iff. unfold amount_truthy.
  destruct (Qeq_bool a 0) eqn:Hz; [|done].
  apply Qeq_bool_iff in Hz. rewrite Hz in Hlow. by apply Qle_bool_iff in Hlow.
Qed.

Lemma py_max_in_range (relevant_chunks : list hit) (a : Q) :
  py_max (collect_amounts relevant_chunks) = Some a -> in_range a = true.
Proof.
  intros Hmax. pose proof (py_max_spec (collect_amounts relevant_chunks)) as Hspec.
  rewrite Hmax in Hspec. destruct Hspec as [Hin _].
  by apply collect_amounts_spec in Hin as [_ Hr].
Qed.

End FallbackText.

(** X11.  The fallback justification is the sentence that counts the hits,
    followed by one of three endings fixed by the decision and the amount: a
    rejection always gets the rejection ending, whatever the amount; an
    approval with an amount quotes the amount; an approval without an amount
    says that none was determined.  An amount that is reported is never
    passed over as if it were absent. *)
Theorem fallback_justification_follows_decision
        (env : Env) (query : string) (relevant_chunks : list hit) :
  let r := _fallback_reasoning env query relevant_chunks in
  exists ending,
    justification r
    = PStr (("Decision based on analysis of " +:+ str_of_nat (length relevant_chunks)
             +:+ " relevant clauses from the policy document. ") +:+ ending)
    /\ (decision r = PStr "rejected" ->
        ending = "Claim rejected based on policy exclusions or limitations.")
    /\ (forall a, decision r = PStr "approved" -> amount r = PNum a ->
                  ending = "Claim approved for amount ₹" +:+ format_money env a +:+ ".")
    /\ (decision r = PStr "approved" -> amount r = PNone ->
        ending = "Policy terms analyzed but no specific amount determined.").
Proof.
  cbn zeta. unfold _fallback_reasoning.
  cbn [justification decision amount].
  pose proof (py_max_in_range relevant_chunks) as Hrange.
  destruct (rejection_loop_cases relevant_chunks) as [[-> _] | [-> _]];
    destruct (py_max (collect_amounts relevant_chunks)) as [a|].
  - cbn [String.eqb Ascii.eqb Bool.eqb andb]. eexists. split; [reflexivity|].
    split; [done|]. split; [by intros a' [=] | by intros [=]].
  - cbn [String.eqb Ascii.eqb Bool.eqb andb]. eexists. split; [reflexivity|].
    split; [done|]. split; [by intros a' [=] | by intros [=]].
  - rewrite (in_range_truthy a (Hrange a eq_refl)).
    cbn [String.eqb Ascii.eqb Bool.eqb andb default]. eexists. split; [reflexivity|].
    split; [by intros [=]|]. split; [by intros a' _ [= <-] | by intros _ [=]].
  - cbn [String.eqb Ascii.eqb Bool.eqb andb amount_truthy].
    eexists. split; [reflexivity|].
    split; [by intros [=]|]. split; [by intros a' _ [=] | done].
Qed.

(** X12.  Each citation of the fallback names the source of its own chunk:
    the file name, the page number and the section of the hit of the same
    rank. *)
Theorem fallback_citations_name_their_source
        (env : Env) (query : string) (relevant_chunks : list hit) :
  exists entries,
    clause_mapping (_fallback_reasoning env query relevant_chunks) = PList entries
    /\ forall i entry, entries !! i = Some entry ->
         exists chunk score,
           relevant_chunks !! i = Some (chunk, score)
           /\ i < 3
           /\ field_of entry "source"
              = Some (PDict [("filename", PStr (filename chunk));
                             ("page", PNum (inject_Z (Z.of_nat (page_number chunk))));
                             ("section", PStr (section chunk))]).
Proof.
  eexists. split; [reflexivity|]. intros i entry Hi.
  rewrite list_lookup_fmap in Hi.
  apply fmap_Some in Hi as [[chunk score] [Hhit ->]].
  apply lookup_take_Some in Hhit as [Hhit Hlt].
  by exists chunk, score.
Qed.

(** ** The audit loop of query *)

Section Audit.

Lemma py_getitem_source (c : pyval) :
  (exists x, py_getitem c "source" = Returns x) <-> is_Some (field_of c "source").
Proof.
  destruct c as [| | | |l|d]; simpl;
    try (split; [by intros [x [=]] | by intros [x [=]]]).
  destruct (dict_get d "source") as [x|].
  - split; [by eexists | by eexists].
  - split; [by intros [x [=]] | by intros [x [=]]].
Qed.

Lemma audit_clauses_spec (items : list pyval) :
  (audit_clauses items = Returns tt <->
   Forall (fun c => is_Some (field_of c "source")) items)
  /\ (audit_clauses items = Returns tt \/ raised (audit_clauses items)).
Proof.
  induction items as [|c items [IH1 IH2]]; simpl.
  - split; [|by left]. split; [by constructor | done].
  - pose proof (py_getitem_source c) as Hc.
    destruct (py_getitem c "source") as [x|e]; simpl.
    + split; [|done]. rewrite IH1, Forall_cons.
      split; [|by intros [_ ?]]. intros H. split; [|done]. apply Hc. by eexists.
    + split; [|right; by eexists]. split; [done|].
      intros [Hsome _]%Forall_cons. apply Hc in Hsome as [x [=]].
Qed.

End Audit.

(** X13.  Once the search has found hits and the reasoning engine has
    returned a result, [query] returns that very result exactly when its
    citations can be audited, that is when [clause_mapping] is iterable and
    every item is a dict with a "source" entry; otherwise [query] raises. *)
Theorem query_returns_iff_citations_auditable
        (env : Env) (st : Heap * RAGPolicyQA) (user_query : string) (top_k : Z)
        (found : loc * Q) (others : list (loc * Q)) (r : QueryResult) :
  is_initialized st.2 = true ->
  semantic_search env st.1 (embedding_engine st.2) user_query top_k
  = Returns (found :: others) ->
  generate_response env (llm_engine st.2) user_query (load_hits st.1 (found :: others))
  = Returns r ->
  (query env st user_query top_k = Returns r <-> cites_sources (clause_mapping r))
  /\ (query env st user_query top_k = Returns r \/ raised (query env st user_query top_k)).
Proof.
  destruct st as [h self]. cbn [fst snd]. intros Hinit Hsearch Hgen.
  unfold query. rewrite Hinit. cbn [negb]. rewrite Hsearch.
  cbn [mbind outcome_bind]. rewrite Hgen. unfold cites_sources.
  unfold mbind, outcome_bind, mret, outcome_ret.
  destruct (py_iter (clause_mapping r)) as [items|e].
  - destruct (audit_clauses_spec items) as [Hiff Hcases].
    destruct (audit_clauses items) as [[]|e] eqn:Haudit.
    + split; [|by left]. split; [|done]. intros _. exists items. split; [done|].
      by apply Hiff.
    + split; [|right; by eexists]. split; [done|].
      intros (items' & [= <-] & Hall). by apply Hiff in Hall.
  - split; [|right; by eexists]. split; [done|]. by intros (items & [=] & _).
Qed.

Lemma query_returns_iff_citations_auditable_witness :
  exists r, query demo_env (loaded "policy.pdf") "knee surgery" 1 = Returns r.
Proof.
  eexists.
  apply (query_returns_iff_citations_auditable demo_env (loaded "policy.pdf")
           "knee surgery" 1 (1, 1489%Q) []).
  - reflexivity.
  - vm_compute. reflexivity.
  - vm_compute. reflexivity.
  - eexists. split; [vm_compute; reflexivity|].
    repeat constructor. vm_compute. by eexists.
Defined.

(** ** The Flask front end: the query history *)

Section History.

Import FlaskApp.

Context (env : Env).

Lemma last_n_length {A} (n : nat) (l : list A) :
  length (last_n n l) = Nat.min n (length l).
Proof. unfold last_n. rewrite length_skipn. lia. Qed.

Lemma last_n_all {A} (n : nat) (l : list A) : length l <= n -> last_n n l = l.
Proof.
  intros Hle. unfold last_n. replace (length l - n) with 0 by lia. done.
Qed.

Lemma last_n_snoc {A} (n : nat) (l : list A) (x : A) :
  exists older, last_n (S n) (l ++ [x]) = older ++ [x] /\ older = last_n n l.
Proof.
  exists (last_n n l). split; [|done]. unfold last_n.
  rewrite length_app. simpl. replace (length l + 1 - S n) with (length l - n) by lia.
  rewrite skipn_app. replace (length l - n - length l) with 0 by lia. done.
Qed.

(** What a query request does to the application. *)
Lemma process_query_cases (now : clock) (req : query_request) (a : app) :
  (is_ok (process_query env now req a).1 = false /\ (process_query env now req a).2 = a)
  \/ (exists asked result,
        (process_query env now req a).1
        = Ok200 asked result (t_end now - t_start now)%Q
        /\ asked = strip (default EmptyString (req_query req))
        /\ PDFProcessor.nonempty asked = true
        /\ (exists system, rag_system a = Some system
                           /\ query env (store a, system) asked
                                    (default 5%Z (req_top_k req)) = Returns result)
        /\ (process_query env now req a).2
           = with_history a
               (last_n 50 (query_history a
                           ++ [mkEntry asked result (t_end now - t_start now)%Q
                                       (t_entry now)]))).
Proof.
  unfold process_query. destruct (rag_system a) as [system|]; [|by left].
  destruct (document_loaded a); [|by left]. cbn [negb].
  destruct (PDFProcessor.nonempty (strip (default EmptyString (req_query req)))) eqn:Hq;
    [|by left]. cbn [negb].
  destruct (query env (store a, system) _ _) as [result|e] eqn:Hquery; [|by left].
  right. eexists _, result. split; [reflexivity|]. split; [reflexivity|].
  split; [done|]. split; [by eexists|]. cbn [snd]. f_equal.
  destruct (50 <? _) eqn:Hlen; [done|]. apply Nat.ltb_ge in Hlen.
  by rewrite last_n_all.
Qed.

End History.

(** X14.  The query history never holds more than 50 entries: from a
    history within the bound, any series of query and clear requests leaves
    a history within the bound. *)
Theorem history_stays_within_fifty
        (env : Env) (requests : list FlaskApp.request) (a : FlaskApp.app) :
  length (FlaskApp.query_history a) <= 50 ->
  length (FlaskApp.query_history (fold_left (FlaskApp.serve env) requests a)) <= 50.
Proof.
  revert a. induction requests as [|r rest IH]; intros a Hlen; simpl; [done|].
  apply IH. destruct r as [now req|]; simpl; [|lia].
  destruct (process_query_cases env now req a) as [[_ ->] | (q & res & _ & _ & _ & _ & ->)];
    [done|].
  simpl. rewrite last_n_length. lia.
Qed.

Lemma history_stays_within_fifty_witness :
  length (FlaskApp.query_history
            (fold_left (FlaskApp.serve demo_env)
               [FlaskApp.Query (FlaskApp.mkClock 0 1 2)
                               (FlaskApp.mkRequest (Some "knee surgery") None);
                FlaskApp.ClearHistory]
               (FlaskApp.mkApp (loaded "policy.pdf").1 (Some (loaded "policy.pdf").2)
                               (Some "policy.pdf") []))) <= 50.
Proof.
  apply (history_stays_within_fifty demo_env). simpl. lia.
Defined.

(** X15.  A query request leaves the loaded system, the store and the
    current document as they are.  When it is answered with an error (no
    document, blank query, or an exception of the RAG system) the history
    is unchanged too; when it is answered with 200 the new entry, holding
    the stripped query and the result sent, is the last entry of the
    history and the earlier entries are the most recent 49 of the old
    history, in their order; the route [/history] then ends with the new
    entry. *)
Theorem query_request_touches_only_the_history
        (env : Env) (now : FlaskApp.clock) (req : FlaskApp.query_request)
        (a : FlaskApp.app) :
  let answer := (FlaskApp.process_query env now req a).1 in
  let a' := (FlaskApp.process_query env now req a).2 in
  FlaskApp.store a' = FlaskApp.store a
  /\ FlaskApp.rag_system a' = FlaskApp.rag_system a
  /\ FlaskApp.current_document a' = FlaskApp.current_document a
  /\ (FlaskApp.is_ok answer = false -> a' = a)
  /\ (forall asked result query_time,
        answer = FlaskApp.Ok200 asked result query_time ->
        let new_entry :=
          FlaskApp.mkEntry asked result query_time (FlaskApp.t_entry now) in
        FlaskApp.query_history a'
        = last_n 49 (FlaskApp.query_history a) ++ [new_entry]
        /\ exists shown, FlaskApp.get_history a' = shown ++ [new_entry]).
Proof.
  cbn zeta.
  destruct (process_query_cases env now req a)
    as [[Hno ->] | (q & res & Hans & _ & _ & _ & Hst)].
  - do 4 (split; [done|]). intros asked result query_time Hans.
    rewrite Hans in Hno. discriminate.
  - rewrite Hst, Hans. simpl. do 4 (split; [done|]).
    intros asked result query_time [= <- <- <-]. cbn zeta.
    destruct (last_n_snoc 49 (FlaskApp.query_history a)
                (FlaskApp.mkEntry q res (FlaskApp.t_end now - FlaskApp.t_start now)%Q
                                  (FlaskApp.t_entry now))) as (older & Heq & ->).
    split; [done|]. unfold FlaskApp.get_history. simpl. rewrite Heq.
    destruct (last_n_snoc 9 (last_n 49 (FlaskApp.query_history a))
                (FlaskApp.mkEntry q res (FlaskApp.t_end now - FlaskApp.t_start now)%Q
                                  (FlaskApp.t_entry now))) as (shown & Hshown & _).
    by exists shown.
Qed.

(** ** The JSON endpoint: one processing per document *)

Section Endpoint.

Import Api.

Context (env : Env) (env_key : option string).

(** A request answered with 200 leaves a system that is initialised and
    whose current document is the path of the request. *)
Lemma api_query_ok_state (data : payload) (st : state) (path : string)
      (result : QueryResult) :
  policy_path data = Some path ->
  (api_query env env_key data st).1 = Ok200 result ->
  exists s, rag_system (api_query env env_key data st).2 = Some s
            /\ is_initialized (rag s) = true
            /\ current_document s = Some path.
Proof.
  intros Hpath. unfold api_query. rewrite Hpath.
  destruct (query_text data) as [asked|]; [|done].
  set (start := match rag_system st with
                | Some s => (store st, s)
                | None => let '(h, r) := RAGPolicyQA_init (store st) env_key in
                          (h, {| rag := r; current_document := None |})
                end).
  destruct start as [h s].
  destruct (must_process s path) eqn:Hmust.
  - pose proof (process_document_flag env path (h, rag s)) as [Hflag _].
    destruct (process_document env path (h, rag s)) as [[u|e] [h' system]];
      cbn [fst snd rag] in *; [|done].
    destruct (query env (h', system) asked 5); [|done].
    cbn [fst snd rag rag_system current_document]. intros _.
    eexists. split; [done|]. cbn [rag current_document]. split; [|done].
    rewrite Hflag. by rewrite orb_true_r.
  - cbn [fst snd]. destruct (query env (h, rag s) asked 5); [|done].
    cbn [fst snd rag_system]. intros _.
    exists s. split; [done|]. unfold must_process in Hmust.
    apply orb_false_iff in Hmust as [Hinit Hdoc].
    apply negb_false_iff in Hinit. split; [done|].
    destruct (current_document s) as [doc|]; [|done].
    apply negb_false_iff, String.eqb_eq in Hdoc. by subst.
Qed.

End Endpoint.

(** X16.  Once a request for a document has been answered with 200, a
    further request for the same path processes nothing: the state is left
    as it is and the answer is that of [query] on the system in place, 200
    with its result or 500 with its exception. *)
Theorem document_is_processed_once
        (env : Env) (env_key : option string) (first : Api.payload) (st : Api.state)
        (path : string) (result : QueryResult) (again : Api.payload) (asked : string) :
  Api.policy_path first = Some path ->
  (Api.api_query env env_key first st).1 = Api.Ok200 result ->
  Api.policy_path again = Some path ->
  Api.query_text again = Some asked ->
  let st' := (Api.api_query env env_key first st).2 in
  (Api.api_query env env_key again st').2 = st'
  /\ exists s, Api.rag_system st' = Some s
               /\ (Api.api_query env env_key again st').1
                  = match query env (Api.store st', Api.rag s) asked 5 with
                    | Returns answer => Api.Ok200 answer
                    | Raises e => Api.Error500 e
                    end.
Proof.
  intros Hpath Hok Hpath' Hasked. cbn zeta.
  destruct (api_query_ok_state env env_key first st path result Hpath Hok)
    as (s & Hs & Hinit & Hdoc).
  destruct (Api.api_query env env_key first st).2 as [h sys]. simpl in Hs. subst sys.
  unfold Api.api_query. rewrite Hpath', Hasked.
  cbn [Api.rag_system Api.store]. unfold Api.must_process.
  rewrite Hinit, Hdoc, String.eqb_refl. cbn [negb orb fst snd].
  destruct (query env (h, Api.rag s) asked 5) eqn:Hq;
    (split; [done|]); exists s; (split; [done|]); by rewrite Hq.
Qed.

Lemma document_is_processed_once_witness :
  (Api.api_query demo_env None second_request
     (Api.api_query demo_env None first_request fresh_api).2).2
  = (Api.api_query demo_env None first_request fresh_api).2.
Proof.
  assert (exists r, (Api.api_query demo_env None first_request fresh_api).1 = Api.Ok200 r)
    as [r Hr].
  { eexists. vm_compute. reflexivity. }
  exact (proj1 (document_is_processed_once demo_env None first_request fresh_api
                  "policy.pdf" r second_request "late payment"
                  eq_refl Hr eq_refl eq_refl)).
Defined.

(** ** Search after a successful load *)

Lemma collect_results_hits_at (cs : list loc) (sims : list Q) (idxs : list nat)
      (hits : list (loc * Q)) :
  collect_results cs sims idxs = Returns hits -> hits_at cs sims idxs hits.
Proof.
  revert hits. induction idxs as [|idx idxs IH]; intros hits; simpl.
  - intros [= <-]. constructor.
  - destruct (cs !! idx) as [chunk|] eqn:Hc; [|done].
    destruct (sims !! idx) as [score|] eqn:Hs; [|done].
    destruct (collect_results cs sims idxs) as [rest|e]; [|done].
    simpl. intros [= <-]. constructor; [done | by apply IH].
Qed.

(** X10.  After a successful load, whatever the search returns is
    consistent with the chunk objects: every hit is one of the loaded chunk
    objects, that object carries an embedding, and the score of the hit is
    the similarity between the query vector and that very embedding. *)
Theorem hit_scores_match_stored_embeddings
        (env : Env) (pdf_path : string) (st : Heap * RAGPolicyQA)
        (cs : list DocumentChunk) (embs : list vector)
        (user_query : string) (top_k : Z) (hits : list (loc * Q)) :
  PDFProcessor.extract_text_from_pdf env pdf_path = Returns cs ->
  cs <> [] ->
  model_encode env (map text cs) = Returns embs ->
  length embs = length cs ->
  semantic_search env (process_document env pdf_path st).2.1
                  (embedding_engine (process_document env pdf_path st).2.2)
                  user_query top_k = Returns hits ->
  exists qv more,
    model_encode env [user_query] = Returns (qv :: more)
    /\ forall r s, (r, s) ∈ hits ->
         exists c c' v,
           c ∈ cs
           /\ chunk_objs (process_document env pdf_path st).2.1 !! r = Some c'
           /\ embedded_as v c c'
           /\ s = cosine env qv v.
Proof.
  intros Hext Hne Henc Hlen.
  destruct (successful_load_spec env pdf_path st cs embs Hext Hne Henc Hlen)
    as (_ & _ & Hemb & Hlist & Hobjs & _).
  set (h' := (process_document env pdf_path st).2.1) in *.
  set (eng := embedding_engine (process_document env pdf_path st).2.2) in *.
  unfold semantic_search. rewrite Hemb.
  destruct (length (deref_list h' (chunks eng)) =? 0) eqn:Hzero.
  { apply Nat.eqb_eq in Hzero. destruct cs; [done|]. simpl in *. lia. }
  destruct (model_encode env [user_query]) as [[|qv more]|e]; [done| |done].
  cbn [mbind outcome_bind]. intros Hres%collect_results_hits_at.
  exists qv, more. split; [done|]. intros r s Hin.
  apply list_elem_of_lookup in Hin as [n Hn].
  destruct (Forall2_lookup_r _ _ _ _ _ Hres Hn) as (idx & _ & Hr & Hs).
  simpl in Hr, Hs. rewrite list_lookup_fmap in Hs.
  apply fmap_Some in Hs as (v & Hv & ->).
  destruct (lookup_lt_is_Some_2 cs idx) as [c Hc].
  { rewrite <- Hlen. by eapply lookup_lt_Some. }
  destruct (Hobjs idx c v Hc Hv) as (r' & Hr' & _ & c' & Hobj & Hemb').
  unfold loc in *. rewrite Hr in Hr'. injection Hr' as <-.
  exists c, c', v. split; [by eapply list_elem_of_lookup_2 | done].
Qed.

Lemma hit_scores_match_stored_embeddings_witness :
  exists qv more,
    model_encode demo_env ["knee surgery"] = Returns (qv :: more)
    /\ forall r s, (r, s) ∈ [(1, 1489%Q); (2, 1333%Q)] ->
         exists c c' v,
           c ∈ PDFProcessor.pages_from "policy.pdf" 0 [coverage_page; exclusions_page]
           /\ chunk_objs (loaded "policy.pdf").1 !! r = Some c'
           /\ embedded_as v c c'
           /\ s = cosine demo_env qv v.
Proof.
  apply (hit_scores_match_stored_embeddings demo_env "policy.pdf"
           (RAGPolicyQA_init empty_heap None)
           (PDFProcessor.pages_from "policy.pdf" 0 [coverage_page; exclusions_page])
           [[124%Q; 1%Q]; [111%Q; 1%Q]] "knee surgery" 5).
  - reflexivity.
  - vm_compute. discriminate.
  - vm_compute. reflexivity.
  - vm_compute. reflexivity.
  - vm_compute. reflexivity.
Defined.

(** ** The chunker: overlap between consecutive chunks *)

Section Overlap.

Import PDFProcessor.






End Overlap.

Section Words.













End Words.

